(** * FlappyBirdGame: a shallow embedding of [src/components/FlappyBirdGame.tsx]

    The component keeps three React state cells ([gameState], [score],
    [highScore]), one mutable ref ([gameStateRef.current], holding the bird,
    the pipes and the particles), and talks to two outside capabilities:
    [localStorage] (one key) and [Math.random].  All of it is gathered in one
    record, [World], and every callback of the component is a function on
    worlds.

    Numbers.  Coordinates and velocities are JavaScript numbers; in the
    worlds of a run they are modelled as exact rationals ([Q]), so IEEE-754
    rounding is not part of that model, and what is proved of a run is stated
    with bounds that the rounding does not move.  Where the rounding decides
    a property, [generatePipe] at the top of the range of [Math.random], the
    function is also given with every operation rounded to binary64 (module
    [Binary64]).  [score], [life] and [maxLife] only ever hold integers (they
    start from integer literals and are changed by [+ 1] and [--]) and are
    modelled as [Z].  [highScore] comes from [parseInt] and can be [NaN]. *)

From Stdlib Require Import ZArith QArith Qminmax Lia Lqa Bool String Ascii.
From Stdlib Require Import DecimalString DecimalFacts DecimalPos Qround Qabs Qpower.
From Stdlib Require Import PrimFloat SpecFloat FloatOps.
From stdpp Require Import base list.

Local Open Scope Z_scope.

(** ** Comparison operators on numbers *)

Definition Qlt_bool (a b : Q) : bool :=
  match (a ?= b)%Q with Lt => true | _ => false end.
Definition Qgt_bool (a b : Q) : bool := Qlt_bool b a.
Definition Qge_bool (a b : Q) : bool := Qle_bool b a.

(** ** Data model (interfaces [Bird], [Pipe], [Particle]) *)

Record Bird := mkBird {
  bird_x : Q;
  bird_y : Q;
  bird_velocity : Q;
  bird_rotation : Q
}.

Record Pipe := mkPipe {
  pipe_x : Q;
  pipe_topHeight : Q;
  pipe_bottomY : Q;
  pipe_passed : bool
}.

Record Particle := mkParticle {
  particle_x : Q;
  particle_y : Q;
  particle_velocity_x : Q;
  particle_velocity_y : Q;
  particle_life : Z;
  particle_maxLife : Z
}.

(** ** Constants *)

Definition CANVAS_WIDTH : Q := 800.
Definition CANVAS_HEIGHT : Q := 600.
Definition BIRD_SIZE : Q := 30.
Definition PIPE_WIDTH : Q := 80.
Definition PIPE_GAP : Q := 200.
Definition GRAVITY : Q := 6 # 10.
Definition JUMP_FORCE : Q := -12.
Definition PIPE_SPEED : Q := 3.

(** ** Binary64 arithmetic

    A finite JavaScript number is a rational [m * 2 ^ e] with [|m| < 2 ^ 53]
    and [-1074 <= e]; the result of an operation is the exact result rounded
    to the nearest such number, ties to the even [m].  Overflow to
    [Infinity] (magnitudes from [2 ^ 1024] on) is not modelled: the numbers
    below stay under 1000. *)

Module Binary64.

(** The integer part of the binary logarithm of [|x|], for [x] other than
    0. *)
Definition ilog2 (x : Q) : Z :=
  let k := Z.log2 (Z.abs (Qnum x)) - Z.log2 (Zpos (Qden x)) in
  if Qle_bool (2 ^ k) (Qabs x) then k else k - 1.

(** The exponent of the unit in the last place of [x]: 53 digits, and no
    exponent below that of the subnormal numbers. *)
Definition exponent (x : Q) : Z := Z.max (-1074) (ilog2 x - 52).

(** The nearest integer, a tie going to the even one. *)
Definition roundTiesToEven (q : Q) : Z :=
  let f := Qfloor q in
  match (q - inject_Z f ?= 1 # 2)%Q with
  | Lt => f
  | Gt => f + 1
  | Eq => if Z.even f then f else f + 1
  end.

Definition round64 (x : Q) : Q :=
  let x := Qred x in
  if Qeq_bool x 0 then 0%Q
  else
    let e := exponent x in
    Qred (inject_Z (roundTiesToEven (x / 2 ^ e)) * 2 ^ e).

(** The operators [+], [-] and [*] on numbers. *)
Definition add (a b : Q) : Q := round64 (a + b).
Definition sub (a b : Q) : Q := round64 (a - b).
Definition mul (a b : Q) : Q := round64 (a * b).

(** [generatePipe], with [r] the number [Math.random()] returns. *)
Definition generatePipe (r : Q) : Pipe :=
  let minHeight : Q := 50%Q in
  let maxHeight : Q := sub (sub CANVAS_HEIGHT PIPE_GAP) minHeight in
  let topHeight : Q := add (mul r (sub maxHeight minHeight)) minHeight in
  {| pipe_x := CANVAS_WIDTH;
     pipe_topHeight := topHeight;
     pipe_bottomY := add topHeight PIPE_GAP;
     pipe_passed := false |}.

(** The value of one of the kernel's binary64 numbers, when it is finite. *)
Definition ofFloat (f : float) : option Q :=
  match Prim2SF f with
  | S754_zero _ => Some 0%Q
  | S754_finite s m e =>
      Some (Qred ((if s then -1 else 1) * inject_Z (Zpos m) * 2 ^ e))
  | _ => None
  end.

(** The largest number below 1, [1 - 2 ^ -53]. *)
Definition below1 : Q := 9007199254740991 # 9007199254740992.

End Binary64.

(** ** [checkCollision] *)

(** The test made on one pipe inside the [for ... of] loop: the two nested
    [if]s. *)
Definition hitsPipe (bird : Bird) (pipe : Pipe) : bool :=
  if Qgt_bool (bird_x bird + BIRD_SIZE / 2) (pipe_x pipe)
     && Qlt_bool (bird_x bird - BIRD_SIZE / 2) (pipe_x pipe + PIPE_WIDTH)
  then
    if Qlt_bool (bird_y bird - BIRD_SIZE / 2) (pipe_topHeight pipe)
       || Qgt_bool (bird_y bird + BIRD_SIZE / 2) (pipe_bottomY pipe)
    then true else false
  else false.

(** The loop over the pipes, returning at the first hit. *)
Fixpoint checkPipes (bird : Bird) (pipes : list Pipe) : bool :=
  match pipes with
  | [] => false
  | pipe :: rest => if hitsPipe bird pipe then true else checkPipes bird rest
  end.

Definition checkCollision (bird : Bird) (pipes : list Pipe) : bool :=
  if Qge_bool (bird_y bird + BIRD_SIZE / 2) (CANVAS_HEIGHT - 50) then true
  else if Qle_bool (bird_y bird - BIRD_SIZE / 2) 0 then true
  else checkPipes bird pipes.

(** ** React state, the ref, and the outside world *)

Inductive GameState := menu | playing | gameOver.

(** A number read back from storage: [parseInt] yields an integer or [NaN]. *)
Inductive JSNumber := NaN | Num (z : Z).

(** [gameState], [score], [highScore] are the three [useState] cells;
    [bird], [pipes], [particles] are the fields of [gameStateRef.current];
    [localStorage] is the value stored under the key [flappyBirdHighScore]
    ([None] when the key is absent); [randomCalls] counts the calls made to
    [Math.random] so far. *)
Record World := mkWorld {
  gameState : GameState;
  score : Z;
  highScore : JSNumber;
  bird : Bird;
  pipes : list Pipe;
  particles : list Particle;
  localStorage : option string;
  randomCalls : nat
}.

Definition setGameState (g : GameState) (w : World) : World :=
  mkWorld g (score w) (highScore w) (bird w) (pipes w) (particles w)
          (localStorage w) (randomCalls w).
(** [setScore] takes an updater, as in [setScore(prev => prev + 1)]. *)
Definition setScore (f : Z -> Z) (w : World) : World :=
  mkWorld (gameState w) (f (score w)) (highScore w) (bird w) (pipes w)
          (particles w) (localStorage w) (randomCalls w).
Definition setHighScore (h : JSNumber) (w : World) : World :=
  mkWorld (gameState w) (score w) h (bird w) (pipes w) (particles w)
          (localStorage w) (randomCalls w).
Definition set_bird (b : Bird) (w : World) : World :=
  mkWorld (gameState w) (score w) (highScore w) b (pipes w) (particles w)
          (localStorage w) (randomCalls w).
Definition set_pipes (ps : list Pipe) (w : World) : World :=
  mkWorld (gameState w) (score w) (highScore w) (bird w) ps (particles w)
          (localStorage w) (randomCalls w).
Definition set_particles (ps : list Particle) (w : World) : World :=
  mkWorld (gameState w) (score w) (highScore w) (bird w) (pipes w) ps
          (localStorage w) (randomCalls w).
Definition localStorage_setItem (v : string) (w : World) : World :=
  mkWorld (gameState w) (score w) (highScore w) (bird w) (pipes w)
          (particles w) (Some v) (randomCalls w).
Definition set_randomCalls (n : nat) (w : World) : World :=
  mkWorld (gameState w) (score w) (highScore w) (bird w) (pipes w)
          (particles w) (localStorage w) n.

(** ** [parseInt] and [toString]

    [parseInt(s)] without a radix, after ECMAScript: skip leading white
    space, take an optional sign, take an optional [0x]/[0X] prefix (radix
    16, else radix 10), read the longest run of digits; no digit gives
    [NaN].  Strings are ASCII strings here.  The integer read is kept as it
    is: [parseInt] returns the binary64 number nearest to it, which is the
    integer itself up to [2 ^ 53], and [toString] prints an integer below
    [10 ^ 21] with all its digits; the scores of the game are such integers,
    and what is proved of the two functions together is stated for them. *)

Definition isWhiteSpace (c : ascii) : bool :=
  let n := nat_of_ascii c in
  (Nat.leb 9 n && Nat.leb n 13) || Nat.eqb n 32.

Fixpoint trimStart (s : string) : string :=
  match s with
  | String c rest => if isWhiteSpace c then trimStart rest else s
  | EmptyString => s
  end.

Definition digitValue (c : ascii) : option Z :=
  let n := Z.of_nat (nat_of_ascii c) in
  if (48 <=? n) && (n <=? 57) then Some (n - 48)
  else if (97 <=? n) && (n <=? 122) then Some (n - 97 + 10)
  else if (65 <=? n) && (n <=? 90) then Some (n - 65 + 10)
  else None.

(** Reads digits of radix [R] from the front of [s]; [acc] is the value read
    so far, [None] while no digit has been read. *)
Fixpoint parseDigits (R : Z) (s : string) (acc : option Z) : option Z :=
  match s with
  | EmptyString => acc
  | String c rest =>
      match digitValue c with
      | Some d =>
          if d <? R
          then parseDigits R rest (Some (default 0 acc * R + d))
          else acc
      | None => acc
      end
  end.

Definition parseInt (input : string) : JSNumber :=
  let S0 := trimStart input in
  let '(sign, S1) :=
    match S0 with
    | String "-" rest => (-1, rest)
    | String "+" rest => (1, rest)
    | _ => (1, S0)
    end in
  let '(R, S2) :=
    match S1 with
    | String "0" (String "x" rest) => (16, rest)
    | String "0" (String "X" rest) => (16, rest)
    | _ => (10, S1)
    end in
  match parseDigits R S2 None with
  | None => NaN
  | Some mathInt => Num (sign * mathInt)
  end.

(** [n.toString()] on an integer. *)
Definition toString (n : Z) : string :=
  DecimalString.NilZero.string_of_int (Z.to_int n).

(** The initialiser of the [highScore] cell (lines 39-42): a string is
    truthy unless it is empty, [null] is falsy. *)
Definition initHighScore (saved : option string) : JSNumber :=
  match saved with
  | None => Num 0
  | Some EmptyString => Num 0
  | Some s => parseInt s
  end.

(** ** The callbacks of the component *)

Section Game.

(** [Math.random]: the [n]-th call returns [random n]. *)
Variable random : nat -> Q.

Definition Math_random (w : World) : Q * World :=
  (random (randomCalls w), set_randomCalls (S (randomCalls w)) w).

(** The world as the component is mounted: [saved] is what the store holds. *)
Definition initialWorld (saved : option string) : World :=
  {| gameState := menu;
     score := 0;
     highScore := initHighScore saved;
     bird := mkBird 150%Q (CANVAS_HEIGHT / 2)%Q 0%Q 0%Q;
     pipes := [];
     particles := [];
     localStorage := saved;
     randomCalls := 0 |}.

Definition resetGame (w : World) : World :=
  let w := set_bird (mkBird 150%Q (CANVAS_HEIGHT / 2)%Q 0%Q 0%Q) w in
  let w := set_pipes [] w in
  let w := set_particles [] w in
  setScore (fun _ => 0) w.

(** One turn of the [for] loop of [addParticles]: a particle is pushed, its
    velocity drawn with two calls to [Math.random]. *)
Definition pushParticle (x y : Q) (w : World) : World :=
  let '(r1, w) := Math_random w in
  let '(r2, w) := Math_random w in
  let particle :=
    {| particle_x := x;
       particle_y := y;
       particle_velocity_x := ((r1 - (5 # 10)) * 8)%Q;
       particle_velocity_y := ((r2 - (5 # 10)) * 8 - 2)%Q;
       particle_life := 30;
       particle_maxLife := 30 |} in
  set_particles (particles w ++ [particle]) w.

Fixpoint addParticles (x y : Q) (count : nat) (w : World) : World :=
  match count with
  | O => w
  | S count' => addParticles x y count' (pushParticle x y w)
  end.

Definition generatePipe (w : World) : Pipe * World :=
  let minHeight : Q := 50%Q in
  let maxHeight : Q := (CANVAS_HEIGHT - PIPE_GAP - minHeight)%Q in
  let '(r, w) := Math_random w in
  let topHeight : Q := (r * (maxHeight - minHeight) + minHeight)%Q in
  ({| pipe_x := CANVAS_WIDTH;
      pipe_topHeight := topHeight;
      pipe_bottomY := (topHeight + PIPE_GAP)%Q;
      pipe_passed := false |}, w).

(** [jump] reads [gameState] from the render it was created in; each event
    is taken to run after React has re-rendered, so that value is the
    current one. *)
Definition jump (w : World) : World :=
  match gameState w with
  | menu => resetGame (setGameState playing w)
  | playing =>
      let b := bird w in
      let w := set_bird (mkBird (bird_x b) (bird_y b) JUMP_FORCE
                                (bird_rotation b)) w in
      addParticles (bird_x (bird w) - BIRD_SIZE / 2)%Q
                   (bird_y (bird w) + BIRD_SIZE / 2)%Q 5 w
  | gameOver => resetGame (setGameState playing w)
  end.

(** *** The pipe loop of [gameLoop] (lines 149-163)

    [updatePipes n w] runs the turns [i = n-1, ..., 0].  Reading a field of
    [pipes[i]] outside the array throws a [TypeError]: the result is then
    [None]. *)

Definition advancePipe (pipe : Pipe) : Pipe :=
  mkPipe (pipe_x pipe - PIPE_SPEED)%Q (pipe_topHeight pipe)
         (pipe_bottomY pipe) (pipe_passed pipe).

Definition markPassed (pipe : Pipe) : Pipe :=
  mkPipe (pipe_x pipe) (pipe_topHeight pipe) (pipe_bottomY pipe) true.

Definition pipeTurn (i : nat) (w : World) : option World :=
  match pipes w !! i with
  | None => None
  | Some pipe =>
      let pipe := advancePipe pipe in
      let w := set_pipes (<[i := pipe]> (pipes w)) w in
      let w :=
        if negb (pipe_passed pipe)
           && Qlt_bool (pipe_x pipe + PIPE_WIDTH) (bird_x (bird w))
        then setScore (fun prev => prev + 1)
               (set_pipes (<[i := markPassed pipe]> (pipes w)) w)
        else w in
      let w :=
        if Qlt_bool (pipe_x pipe + PIPE_WIDTH) 0
        then set_pipes (delete i (pipes w)) w
        else w in
      Some w
  end.

Fixpoint updatePipes (n : nat) (w : World) : option World :=
  match n with
  | O => Some w
  | S i => w ← pipeTurn i w; updatePipes i w
  end.

(** *** The particle loop of [gameLoop] (lines 184-194) *)

Definition advanceParticle (p : Particle) : Particle :=
  {| particle_x := (particle_x p + particle_velocity_x p)%Q;
     particle_y := (particle_y p + particle_velocity_y p)%Q;
     particle_velocity_x := particle_velocity_x p;
     particle_velocity_y := (particle_velocity_y p + (3 # 10))%Q;
     particle_life := particle_life p - 1;
     particle_maxLife := particle_maxLife p |}.

Definition particleTurn (i : nat) (w : World) : option World :=
  match particles w !! i with
  | None => None
  | Some particle =>
      let particle := advanceParticle particle in
      let w := set_particles (<[i := particle]> (particles w)) w in
      let w :=
        if particle_life particle <=? 0
        then set_particles (delete i (particles w)) w
        else w in
      Some w
  end.

Fixpoint updateParticles (n : nat) (w : World) : option World :=
  match n with
  | O => Some w
  | S i => w ← particleTurn i w; updateParticles i w
  end.

(** *** [gameLoop] *)

(** [score > highScore]; a comparison with [NaN] is false. *)
Definition score_gt (s : Z) (h : JSNumber) : bool :=
  match h with
  | NaN => false
  | Num h => h <? s
  end.

(** Lines 143-146. *)
Definition updateBird (b : Bird) : Bird :=
  let velocity := (bird_velocity b + GRAVITY)%Q in
  let y := (bird_y b + velocity)%Q in
  mkBird (bird_x b) y velocity (Qmin (Qmax (velocity * 3) (-30)) 90).

(** Lines 165-168. *)
Definition spawnPipe (w : World) : World :=
  let spawn :=
    match last (pipes w) with
    | None => true
    | Some pipe => Qlt_bool (pipe_x pipe) (CANVAS_WIDTH - 300)
    end in
  if spawn
  then let '(pipe, w) := generatePipe w in set_pipes (pipes w ++ [pipe]) w
  else w.

(** Lines 170-180.  [score0] and [highScore0] are the values of [score] and
    [highScore] captured by the closure, that is, as of the last render. *)
Definition collide (score0 : Z) (highScore0 : JSNumber) (w : World) : World :=
  if checkCollision (bird w) (pipes w)
  then
    let w := setGameState gameOver w in
    let w := addParticles (bird_x (bird w)) (bird_y (bird w)) 15 w in
    if score_gt score0 highScore0
    then localStorage_setItem (toString score0)
           (setHighScore (Num score0) w)
    else w
  else w.

(** Lines 142-181: the body of [if (gameState === 'playing')]. *)
Definition simulate (score0 : Z) (highScore0 : JSNumber) (w : World)
  : option World :=
  let w := set_bird (updateBird (bird w)) w in
  w ← updatePipes (length (pipes w)) w;
  let w := spawnPipe w in
  Some (collide score0 highScore0 w).

(** One animation frame, up to the drawing (which reads the state and
    changes nothing).  [canvas] and [ctx] say whether the canvas and its 2D
    context are there; without them the callback returns at once.  Each
    frame is taken to run after React has re-rendered, so the closure holds
    the current [gameState], [score] and [highScore]; the updates the frame
    queues are applied to the world as they are made. *)
Definition gameLoop (canvas ctx : bool) (w : World) : option World :=
  if negb canvas then Some w
  else if negb ctx then Some w
  else
    let gameState0 := gameState w in
    let score0 := score w in
    let highScore0 := highScore w in
    w ← match gameState0 with
        | playing => simulate score0 highScore0 w
        | _ => Some w
        end;
    updateParticles (length (particles w)) w.


(** ** What one frame does to one pipe

    The pipe loop treats every pipe by itself; these definitions say what
    happens to one pipe, with [bx] the bird's [x]. *)

(** The pipe earns a point in this frame. *)
Definition scores (bx : Q) (pipe : Pipe) : bool :=
  negb (pipe_passed pipe)
  && Qlt_bool (pipe_x pipe - PIPE_SPEED + PIPE_WIDTH) bx.

(** The pipe as the frame leaves it. *)
Definition stepPipe (bx : Q) (pipe : Pipe) : Pipe :=
  if scores bx pipe then markPassed (advancePipe pipe) else advancePipe pipe.

(** The pipe, already moved, is spliced out. *)
Definition offScreen (pipe : Pipe) : bool :=
  Qlt_bool (pipe_x pipe + PIPE_WIDTH) 0.

Definition pipesAfter (bx : Q) (l : list Pipe) : list Pipe :=
  List.filter (fun pipe => negb (offScreen pipe)) (List.map (stepPipe bx) l).

Definition gained (bx : Q) (l : list Pipe) : Z :=
  Z.of_nat (length (List.filter (scores bx) l)).

(** The points one pipe earns over [n] consecutive frames. *)
Fixpoint increments (bx : Q) (n : nat) (pipe : Pipe) : Z :=
  match n with
  | O => 0
  | S n' => (if scores bx pipe then 1 else 0)
            + increments bx n' (stepPipe bx pipe)
  end.

(** What the particle loop leaves of a list of particles. *)
Definition particlesAfter (l : list Particle) : list Particle :=
  List.filter (fun p => negb (particle_life p <=? 0))
              (List.map advanceParticle l).

(** ** Drawing (lines 196-328)

    The drawing part of [gameLoop] is the list of the calls it makes on
    the 2D context, in order.  Angles are written in units of pi:
    [Math.PI * 2] is [2], and [(rotation * Math.PI) / 180] is
    [rotation / 180]. *)

Inductive Cmd :=
| FillStyle (style : string)
| StrokeStyle (style : string)
| GlobalAlpha (alpha : Q)
| LineWidth (width : Q)
| Font (font : string)
| TextAlign (align : string)
| FillRect (x y w h : Q)
| BeginPath
| Arc (x y radius startAngle endAngle : Q)
| Ellipse (x y radiusX radiusY rotation startAngle endAngle : Q)
| MoveTo (x y : Q)
| LineTo (x y : Q)
| ClosePath
| Fill
| Save
| Restore
| Translate (x y : Q)
| Rotate (angle : Q)
| StrokeText (text : string) (x y : Q)
| FillText (text : string) (x y : Q).

(** [a % b] on numbers: the remainder of the division truncated towards
    zero. *)
Definition Qtrunc (q : Q) : Z :=
  if Qle_bool 0 q then Qfloor q else Qceiling q.

Definition js_rem (a b : Q) : Q := (a - b * inject_Z (Qtrunc (a / b)))%Q.

(** A number in a template literal. *)
Definition numberToString (h : JSNumber) : string :=
  match h with
  | NaN => "NaN"
  | Num z => toString z
  end.

(** Lines 196-198. *)
Definition drawSky : list Cmd :=
  [FillStyle "#87CEEB"; FillRect 0 0 CANVAS_WIDTH CANVAS_HEIGHT].

(** Lines 204-211, the cloud of index [i]; [now] is [Date.now()]. *)
Definition cloudX (now : Z) (i : nat) : Q :=
  (js_rem (inject_Z now * (1 # 100) + inject_Z (Z.of_nat i) * 160)
          (CANVAS_WIDTH + 100)
   - 50)%Q.

Definition cloudY (i : nat) : Q := (50 + inject_Z (Z.of_nat i) * 30)%Q.

Definition drawCloud (now : Z) (i : nat) : list Cmd :=
  [BeginPath;
   Arc (cloudX now i) (cloudY i) 20 0 2;
   Arc (cloudX now i + 25) (cloudY i) 25 0 2;
   Arc (cloudX now i + 50) (cloudY i) 20 0 2;
   Fill].

(** Lines 200-213. *)
Definition drawClouds (now : Z) : list Cmd :=
  [FillStyle "#FFFFFF"; GlobalAlpha (8 # 10)]
  ++ List.flat_map (drawCloud now) (seq 0 5)
  ++ [GlobalAlpha 1].

(** Lines 215-221. *)
Definition drawGround : list Cmd :=
  [FillStyle "#8B4513";
   FillRect 0 (CANVAS_HEIGHT - 50) CANVAS_WIDTH 50;
   FillStyle "#228B22";
   FillRect 0 (CANVAS_HEIGHT - 60) CANVAS_WIDTH 10].

(** Lines 226-240, the body of [pipes.forEach]. *)
Definition drawPipe (pipe : Pipe) : list Cmd :=
  [FillRect (pipe_x pipe) 0 PIPE_WIDTH (pipe_topHeight pipe);
   FillRect (pipe_x pipe - 5) (pipe_topHeight pipe - 30)
            (PIPE_WIDTH + 10) 30;
   FillRect (pipe_x pipe) (pipe_bottomY pipe) PIPE_WIDTH
            (CANVAS_HEIGHT - pipe_bottomY pipe - 50);
   FillRect (pipe_x pipe - 5) (pipe_bottomY pipe) (PIPE_WIDTH + 10) 30;
   FillStyle "#90EE90";
   FillRect (pipe_x pipe + 5) 0 5 (pipe_topHeight pipe);
   FillRect (pipe_x pipe + 5) (pipe_bottomY pipe) 5
            (CANVAS_HEIGHT - pipe_bottomY pipe - 50);
   FillStyle "#32CD32"].

(** Lines 223-241. *)
Definition drawPipes (l : list Pipe) : list Cmd :=
  FillStyle "#32CD32" :: List.flat_map drawPipe l.

(** Lines 245-250, the body of [particles.forEach]. *)
Definition drawParticle (p : Particle) : list Cmd :=
  let alpha :=
    (inject_Z (particle_life p) / inject_Z (particle_maxLife p))%Q in
  [GlobalAlpha alpha;
   FillStyle "#FFD700";
   BeginPath;
   Arc (particle_x p) (particle_y p) 3 0 2;
   Fill].

(** Lines 243-252. *)
Definition drawParticles (l : list Particle) : list Cmd :=
  List.flat_map drawParticle l ++ [GlobalAlpha 1].

(** Lines 254-292. *)
Definition drawBird (b : Bird) : list Cmd :=
  [Save;
   Translate (bird_x b) (bird_y b);
   Rotate (bird_rotation b * 1 / 180);
   FillStyle "#FFD700";
   BeginPath;
   Ellipse 0 0 (BIRD_SIZE / 2) (BIRD_SIZE / 3) 0 0 2;
   Fill;
   FillStyle "#FFA500";
   BeginPath;
   Ellipse (-5) (-3) 12 8 0 0 2;
   Fill;
   FillStyle "#FFFFFF";
   BeginPath;
   Arc 8 (-5) 6 0 2;
   Fill;
   FillStyle "#000000";
   BeginPath;
   Arc 10 (-5) 3 0 2;
   Fill;
   FillStyle "#FF8C00";
   BeginPath;
   MoveTo 15 0;
   LineTo 25 3;
   LineTo 15 6;
   ClosePath;
   Fill;
   Restore].

(** A text stroked, then filled, at the same place. *)
Definition label (text : string) (x y : Q) : list Cmd :=
  [StrokeText text x y; FillText text x y].

(** Lines 294-328.  [gameState0], [score0] and [highScore0] are the values
    the closure holds. *)
Definition drawUI (gameState0 : GameState) (score0 : Z)
    (highScore0 : JSNumber) : list Cmd :=
  [FillStyle "#FFFFFF";
   Font "bold 48px Arial";
   TextAlign "center";
   StrokeStyle "#000000";
   LineWidth 3]
  ++ match gameState0 with
     | menu =>
         label "Flappy Bird" (CANVAS_WIDTH / 2) 150
         ++ [Font "bold 24px Arial"]
         ++ label "Press SPACE or Click to Start" (CANVAS_WIDTH / 2) 200
         ++ label (String.append "High Score: " (numberToString highScore0))
                  (CANVAS_WIDTH / 2) 250
     | playing => label (toString score0) (CANVAS_WIDTH / 2) 80
     | gameOver =>
         label "Game Over" (CANVAS_WIDTH / 2) 200
         ++ [Font "bold 32px Arial"]
         ++ label (String.append "Score: " (toString score0))
                  (CANVAS_WIDTH / 2) 250
         ++ label (String.append "High Score: " (numberToString highScore0))
                  (CANVAS_WIDTH / 2) 290
         ++ [Font "bold 24px Arial"]
         ++ label "Press SPACE or Click to Restart" (CANVAS_WIDTH / 2) 350
     end.

(** What one frame draws: [w0] is the world the frame began with, whose
    state cells the closure still holds, and [w] the world after the
    frame's updates. *)
Definition render (now : Z) (w0 w : World) : list Cmd :=
  drawSky ++ drawClouds now ++ drawGround ++ drawPipes (pipes w)
  ++ drawParticles (particles w) ++ drawBird (bird w)
  ++ drawUI (gameState w0) (score w0) (highScore w0).

(** The part of the 2D context that [save] and [restore] keep and that the
    frame changes: the alpha and the stack of saved alphas. *)
Definition Canvas : Type := (Q * list Q)%type.

Definition runCmd (c : Canvas) (cmd : Cmd) : Canvas :=
  match cmd with
  | GlobalAlpha a => (a, snd c)
  | Save => (fst c, fst c :: snd c)
  | Restore =>
      match snd c with
      | a :: rest => (a, rest)
      | [] => c
      end
  | _ => c
  end.

Definition runCmds (c : Canvas) (cmds : list Cmd) : Canvas :=
  fold_left runCmd cmds c.

(** A rectangle and the bird's box share a region of positive area. *)
Definition overlapsBird (b : Bird) (x y w h : Q) : Prop :=
  (bird_x b - BIRD_SIZE / 2 < x + w)%Q /\ (x < bird_x b + BIRD_SIZE / 2)%Q /\
  (bird_y b - BIRD_SIZE / 2 < y + h)%Q /\ (y < bird_y b + BIRD_SIZE / 2)%Q.

(** ** Runs of the component *)

(** The worlds a run can be in: the component is mounted, then activate
    events ([jump]) and animation frames ([gameLoop]) follow one another. *)
Inductive reachable : World -> Prop :=
| reach_mount saved : reachable (initialWorld saved)
| reach_jump w : reachable w -> reachable (jump w)
| reach_frame canvas ctx w w' :
    reachable w -> gameLoop canvas ctx w = Some w' -> reachable w'.

(** [n] animation frames in a row, canvas and context in place. *)
Fixpoint frames (n : nat) (w : World) : option World :=
  match n with
  | O => Some w
  | S n' => w ← gameLoop true true w; frames n' w
  end.

(** A session: for each number in the script, that many frames and then
    one activate event. *)
Fixpoint play (script : list nat) (w : World) : option World :=
  match script with
  | [] => Some w
  | n :: rest => w ← frames n w; play rest (jump w)
  end.

(** ** Input and the whole frame (lines 330-366) *)

(** [handleKeyPress]: the answer says whether [preventDefault] was
    called. *)
Definition handleKeyPress (code : string) (w : World) : bool * World :=
  if String.eqb code "Space" then (true, jump w) else (false, w).

Definition handleClick (w : World) : World := jump w.

(** The whole callback of [requestAnimationFrame]: the updated world, what
    was drawn, and whether the next frame was requested. *)
Definition animationFrame (now : Z) (canvas ctx : bool) (w : World)
  : option (World * list Cmd * bool) :=
  if negb canvas then Some (w, [], false)
  else if negb ctx then Some (w, [], false)
  else
    w' ← gameLoop canvas ctx w;
    Some (w', render now w w', true).

(** What reaches the component: a key goes down, the canvas is clicked, or
    the browser runs the animation frame. *)
Inductive Event :=
| KeyDown (code : string)
| Click
| AnimationFrame (now : Z) (canvas ctx : bool).

Definition dispatch (e : Event) (w : World) : option World :=
  match e with
  | KeyDown code => Some (snd (handleKeyPress code w))
  | Click => Some (handleClick w)
  | AnimationFrame now canvas ctx =>
      r ← animationFrame now canvas ctx w; Some (fst (fst r))
  end.

Fixpoint dispatchAll (events : list Event) (w : World) : option World :=
  match events with
  | [] => Some w
  | e :: rest => w ← dispatch e w; dispatchAll rest w
  end.

(** The events that steer the game: the Space key counts as a click, any
    other key as nothing. *)
Definition steering (e : Event) : list Event :=
  match e with
  | KeyDown code => if String.eqb code "Space" then [Click] else []
  | _ => [e]
  end.

(** [w'] differs from [w] in its particles and in the number of random
    draws at most. *)
Definition onlyParticles (w w' : World) : Prop :=
  gameState w' = gameState w /\ score w' = score w /\
  highScore w' = highScore w /\ bird w' = bird w /\
  pipes w' = pipes w /\ localStorage w' = localStorage w.

(** A particle as [addParticles x y] makes it. *)
Definition spawnedAt (x y : Q) (p : Particle) : Prop :=
  particle_x p = x /\ particle_y p = y /\
  particle_life p = 30 /\ particle_maxLife p = 30.

(** The world between the pipe loop and the spawning of a new pipe. *)
Definition afterPipes (w : World) : World :=
  mkWorld (gameState w)
          (score w + gained (bird_x (bird w)) (pipes w))
          (highScore w)
          (updateBird (bird w))
          (pipesAfter (bird_x (bird w)) (pipes w))
          (particles w) (localStorage w) (randomCalls w).

(** What holds of every particle of a run. *)
Definition particleOk (p : Particle) : Prop :=
  1 <= particle_life p <= particle_maxLife p /\ particle_maxLife p = 30.

(** What holds of every pipe of a run. *)
Definition pipeOk (pipe : Pipe) : Prop :=
  (50 <= pipe_topHeight pipe)%Q /\ (pipe_topHeight pipe < 350)%Q /\
  pipe_bottomY pipe = (pipe_topHeight pipe + PIPE_GAP)%Q.

(** ** Sample worlds

    A fixed random source and a few worlds, on which the properties below
    are run. *)

(** [Math.random] always answering one half. *)
Definition coin : nat -> Q := fun _ => 1 # 2.

(** In flight; pipes 303 apart (a pipe is pushed at [x = 800] when the
    last one has come to 497), the first one past the bird and about to
    reach [x = -1]. *)
Definition cruisingWorld : World :=
  {| gameState := playing;
     score := 1;
     highScore := Num 0;
     bird := mkBird 150%Q (1497 # 5)%Q (36 # 5)%Q (108 # 5)%Q;
     pipes := [mkPipe 2%Q 200%Q 400%Q true;
               mkPipe 305%Q 200%Q 400%Q false;
               mkPipe 608%Q 200%Q 400%Q false];
     particles := [];
     localStorage := None;
     randomCalls := 73 |}.

(** Falling fast inside the gap of the first pipe, whose trailing edge is
    at [x = 151].  The next frame takes that edge to 148, left of the bird,
    and takes the bird's lower edge to [381 + 14.4 + 15 = 410.4], below the
    gap's bottom at 400. *)
Definition divingWorld : World :=
  {| gameState := playing;
     score := 0;
     highScore := Num 0;
     bird := mkBird 150%Q 381%Q (69 # 5)%Q (207 # 5)%Q;
     pipes := [mkPipe 71%Q 200%Q 400%Q false;
               mkPipe 374%Q 200%Q 400%Q false;
               mkPipe 677%Q 200%Q 400%Q false];
     particles := [];
     localStorage := None;
     randomCalls := 73 |}.

(** Just after a crash on the ground: the 15 particles of the burst have
    made their first move. *)
Definition crashedWorld : World :=
  {| gameState := gameOver;
     score := 0;
     highScore := Num 0;
     bird := mkBird 150%Q (2718 # 5)%Q (84 # 5)%Q (252 # 5)%Q;
     pipes := [mkPipe 719%Q 200%Q 400%Q false];
     particles :=
       replicate 15 (mkParticle 150%Q (2708 # 5)%Q 0%Q (-17 # 10)%Q 29 30);
     localStorage := None;
     randomCalls := 31 |}.

(** The sessions that lead to these worlds when the random source is
    [coin], from a first visit with an empty store: the opening activate
    event, then the script (frames between flaps), then some more frames. *)
Definition session (script : list nat) (n : nat) : option World :=
  w ← play script (jump (initialWorld None)); frames n w.

Definition cruisingScript : list nat := [0; 42; 45; 32; 42; 43; 31]%nat.
Definition divingScript : list nat := [0; 39; 39; 39; 39; 2; 43]%nat.

(** Two worlds that differ in how their fractions are written at most. *)
Definition Bird_eq (a b : Bird) : Prop :=
  (bird_x a == bird_x b)%Q /\ (bird_y a == bird_y b)%Q /\
  (bird_velocity a == bird_velocity b)%Q /\
  (bird_rotation a == bird_rotation b)%Q.

Definition Pipe_eq (a b : Pipe) : Prop :=
  (pipe_x a == pipe_x b)%Q /\ (pipe_topHeight a == pipe_topHeight b)%Q /\
  (pipe_bottomY a == pipe_bottomY b)%Q /\ pipe_passed a = pipe_passed b.

Definition Particle_eq (a b : Particle) : Prop :=
  (particle_x a == particle_x b)%Q /\ (particle_y a == particle_y b)%Q /\
  (particle_velocity_x a == particle_velocity_x b)%Q /\
  (particle_velocity_y a == particle_velocity_y b)%Q /\
  particle_life a = particle_life b /\
  particle_maxLife a = particle_maxLife b.

Definition World_eq (a b : World) : Prop :=
  gameState a = gameState b /\ score a = score b /\
  highScore a = highScore b /\ Bird_eq (bird a) (bird b) /\
  Forall2 Pipe_eq (pipes a) (pipes b) /\
  Forall2 Particle_eq (particles a) (particles b) /\
  localStorage a = localStorage b /\ randomCalls a = randomCalls b.

(** The world one frame after the first activate event of a session with
    an empty store, under [coin]: the bird has started to fall and the first
    pipe stands at the right edge. *)
Definition launchedWorld : World :=
  {| gameState := playing;
     score := 0;
     highScore := Num 0;
     bird := updateBird (mkBird 150%Q (CANVAS_HEIGHT / 2)%Q 0%Q 0%Q);
     pipes :=
       [mkPipe CANVAS_WIDTH
               ((1 # 2) * (CANVAS_HEIGHT - PIPE_GAP - 50 - 50) + 50)%Q
               ((1 # 2) * (CANVAS_HEIGHT - PIPE_GAP - 50 - 50) + 50
                + PIPE_GAP)%Q
               false];
     particles := [];
     localStorage := None;
     randomCalls := 1 |}.

(** A frame whose result is put in lowest terms, fraction by fraction:
    the same run, with numbers that stay small. *)
Definition canonBird (b : Bird) : Bird :=
  mkBird (Qred (bird_x b)) (Qred (bird_y b)) (Qred (bird_velocity b))
         (Qred (bird_rotation b)).

Definition canonPipe (pipe : Pipe) : Pipe :=
  mkPipe (Qred (pipe_x pipe)) (Qred (pipe_topHeight pipe))
         (Qred (pipe_bottomY pipe)) (pipe_passed pipe).

Definition canonParticle (p : Particle) : Particle :=
  mkParticle (Qred (particle_x p)) (Qred (particle_y p))
             (Qred (particle_velocity_x p)) (Qred (particle_velocity_y p))
             (particle_life p) (particle_maxLife p).

Definition canon (w : World) : World :=
  mkWorld (gameState w) (score w) (highScore w) (canonBird (bird w))
          (List.map canonPipe (pipes w))
          (List.map canonParticle (particles w))
          (localStorage w) (randomCalls w).

Fixpoint framesC (n : nat) (w : World) : option World :=
  match n with
  | O => Some w
  | S n' => w ← gameLoop true true w; framesC n' (canon w)
  end.

Fixpoint playC (script : list nat) (w : World) : option World :=
  match script with
  | [] => Some w
  | n :: rest => w ← framesC n w; playC rest (canon (jump w))
  end.

Definition sessionC (script : list nat) (n : nat) : option World :=
  w ← playC script (canon (jump (initialWorld None))); framesC n w.

(** ** Invariants of a run *)

(** A natural number as a JavaScript number. *)
Definition Qn (n : nat) : Q := inject_Z (Z.of_nat n).

(** Consecutive pipes stand 303 apart. *)
Fixpoint spaced (l : list Pipe) : Prop :=
  match l with
  | pipe :: rest =>
      match rest with
      | next :: _ => (pipe_x next == pipe_x pipe + 303)%Q /\ spaced rest
      | [] => True
      end
  | [] => True
  end.

(** What holds of the pipe array of a run: the pipes are 303 apart, none
    is further left than [x = -80], and the newest stands at [800 - 3 k]
    for some [k] from 0 to 100. *)
Definition pipesInv (l : list Pipe) : Prop :=
  spaced l /\
  Forall (fun pipe => (0 <= pipe_x pipe + 80)%Q) l /\
  match last l with
  | None => True
  | Some pipe =>
      exists k : Z, 0 <= k <= 100 /\ (pipe_x pipe == 800 - 3 * inject_Z k)%Q
  end.

(** What holds of the bird of a run: it stays at [x = 150], its rotation is
    clamped, and in flight it is clear of ceiling and ground and never
    rises faster than a flap makes it. *)
Definition birdInv (w : World) : Prop :=
  (bird_x (bird w) == 150)%Q /\
  (-30 <= bird_rotation (bird w))%Q /\ (bird_rotation (bird w) <= 90)%Q /\
  (gameState w = playing ->
   (15 < bird_y (bird w))%Q /\ (bird_y (bird w) < 535)%Q /\
   (-12 <= bird_velocity (bird w))%Q).

(** The score is a natural number and the best score is what the store
    would give on a reload. *)
Definition scoreInv (w : World) : Prop :=
  0 <= score w /\ highScore w = initHighScore (localStorage w).

(** The speed of a particle that has lived [30 - life] frames. *)
Definition particleSpeedOk (p : Particle) : Prop :=
  (-4 <= particle_velocity_x p)%Q /\ (particle_velocity_x p < 4)%Q /\
  (-6 + (3 # 10) * inject_Z (30 - particle_life p)
   <= particle_velocity_y p)%Q /\
  (particle_velocity_y p
   < 2 + (3 # 10) * inject_Z (30 - particle_life p))%Q.

(** * Properties *)

(** ** Comparisons *)

Lemma Qlt_bool_iff a b : Qlt_bool a b = true <-> (a < b)%Q.
Proof.
  unfold Qlt_bool. rewrite Qlt_alt.
  destruct (a ?= b)%Q; split; congruence.
Qed.

Lemma Qgt_bool_iff a b : Qgt_bool a b = true <-> (b < a)%Q.
Proof. apply Qlt_bool_iff. Qed.

Lemma Qge_bool_iff a b : Qge_bool a b = true <-> (b <= a)%Q.
Proof. apply Qle_bool_iff. Qed.

Lemma Qlt_bool_false a b : Qlt_bool a b = false <-> (b <= a)%Q.
Proof.
  rewrite <- not_true_iff_false, Qlt_bool_iff.
  split; [apply Qnot_lt_le | apply Qle_not_lt].
Qed.


(** ** The stored best score *)

Lemma parseDigits_step R c s a k :
  digitValue c = Some k -> (k <? R) = true ->
  parseDigits R (String c s) a = parseDigits R s (Some (default 0 a * R + k)).
Proof. intros Hd Hk. cbn [parseDigits]. rewrite Hd, Hk. reflexivity. Qed.

Ltac digit_step k :=
  rewrite (parseDigits_step 10 _ _ _ k) by reflexivity;
  cbn [default from_option id].

Lemma parseDigits_acc d :
  forall acc : positive,
    parseDigits 10 (NilEmpty.string_of_uint d) (Some (Zpos acc))
    = Some (Zpos (Pos.of_uint_acc d acc)).
Proof.
  induction d; intros acc; cbn [NilEmpty.string_of_uint Pos.of_uint_acc];
    [reflexivity|..];
    [digit_step 0|digit_step 1|digit_step 2|digit_step 3|digit_step 4
    |digit_step 5|digit_step 6|digit_step 7|digit_step 8|digit_step 9];
    rewrite <- IHd; do 2 f_equal; lia.
Qed.

Lemma parseDigits_zero d :
  parseDigits 10 (NilEmpty.string_of_uint d) (Some 0)
  = Some (Z.of_N (Pos.of_uint d)).
Proof.
  induction d; cbn [NilEmpty.string_of_uint Pos.of_uint];
    [reflexivity|..];
    [digit_step 0|digit_step 1|digit_step 2|digit_step 3|digit_step 4
    |digit_step 5|digit_step 6|digit_step 7|digit_step 8|digit_step 9];
    [exact IHd|..]; apply parseDigits_acc.
Qed.

Lemma parseDigits_start d :
  d <> Decimal.Nil ->
  parseDigits 10 (NilEmpty.string_of_uint d) None
  = Some (Z.of_N (Pos.of_uint d)).
Proof.
  intros Hd. rewrite <- parseDigits_zero.
  destruct d; [congruence|..]; cbn [NilEmpty.string_of_uint];
    [digit_step 0|digit_step 1|digit_step 2|digit_step 3|digit_step 4
    |digit_step 5|digit_step 6|digit_step 7|digit_step 8|digit_step 9];
    [digit_step 0|digit_step 1|digit_step 2|digit_step 3|digit_step 4
    |digit_step 5|digit_step 6|digit_step 7|digit_step 8|digit_step 9];
    reflexivity.
Qed.

Lemma parseInt_leading_digit c s k :
  digitValue c = Some k -> 1 <= k <= 9 ->
  parseInt (String c s) =
  match parseDigits 10 (String c s) None with
  | Some mathInt => Num mathInt
  | None => NaN
  end.
Proof.
  intros H Hk.
  assert (E : forall m, 1 * m = m) by (intros; lia).
  destruct c as [[] [] [] [] [] [] [] []];
    vm_compute in H; try discriminate; injection H as <-; try lia;
    lazy -[parseDigits Z.mul];
    destruct (parseDigits 10 _ None); rewrite ?E; reflexivity.
Qed.

Lemma to_uint_leading p d : Pos.to_uint p <> Decimal.D0 d.
Proof.
  intros H.
  pose proof (DecimalPos.Unsigned.to_of (Pos.to_uint p)) as Hn.
  rewrite DecimalPos.Unsigned.of_to in Hn. cbn [N.to_uint] in Hn.
  unfold Decimal.unorm in Hn.
  destruct (Decimal.nzhead (Pos.to_uint p)) eqn:E.
  - apply (DecimalPos.Unsigned.to_uint_nonzero p). exact Hn.
  - rewrite Hn in H. injection H as ->.
    apply (DecimalFacts.nzhead_nonzero _ _ E).
  - congruence.
  - congruence.
  - congruence.
  - congruence.
  - congruence.
  - congruence.
  - congruence.
  - congruence.
  - congruence.
Qed.

(** [toString] then [parseInt] gives the integer back. *)
Lemma parseInt_toString n : 0 <= n -> parseInt (toString n) = Num n.
Proof.
  intros Hn. destruct n as [|p|p]; [reflexivity| |lia].
  unfold toString. cbn [Z.to_int NilZero.string_of_int].
  pose proof (DecimalPos.Unsigned.to_uint_nonnil p) as Hnil.
  pose proof (to_uint_leading p) as Hlead.
  pose proof (parseDigits_start _ Hnil) as Hp.
  rewrite DecimalPos.Unsigned.of_to in Hp. cbn [Z.of_N] in Hp.
  unfold NilZero.string_of_uint.
  destruct (Pos.to_uint p) as [|d|d|d|d|d|d|d|d|d|d];
    [congruence|exfalso; exact (Hlead d eq_refl)|..];
    cbn [NilEmpty.string_of_uint] in *;
    [rewrite (parseInt_leading_digit _ _ 1) by (try reflexivity; lia)
    |rewrite (parseInt_leading_digit _ _ 2) by (try reflexivity; lia)
    |rewrite (parseInt_leading_digit _ _ 3) by (try reflexivity; lia)
    |rewrite (parseInt_leading_digit _ _ 4) by (try reflexivity; lia)
    |rewrite (parseInt_leading_digit _ _ 5) by (try reflexivity; lia)
    |rewrite (parseInt_leading_digit _ _ 6) by (try reflexivity; lia)
    |rewrite (parseInt_leading_digit _ _ 7) by (try reflexivity; lia)
    |rewrite (parseInt_leading_digit _ _ 8) by (try reflexivity; lia)
    |rewrite (parseInt_leading_digit _ _ 9) by (try reflexivity; lia)];
    rewrite Hp; reflexivity.
Qed.

Lemma initHighScore_toString n :
  0 <= n -> initHighScore (Some (toString n)) = Num n.
Proof.
  intros Hn. pose proof (parseInt_toString n Hn) as H.
  unfold initHighScore. destruct (toString n); [discriminate H|exact H].
Qed.

(** ** The collision predicate *)

(** [BIRD_SIZE / 2] is 15; [lra] is given the quotient as an unknown with
    that equation. *)
Ltac half_size :=
  let h := fresh "h" in
  let Hh := fresh "Hh" in
  let Hh15 := fresh "Hh15" in
  remember (BIRD_SIZE / 2)%Q as h eqn:Hh;
  assert (Hh15 : (h == 15)%Q) by (subst h; reflexivity);
  clear Hh.

Lemma hitsPipe_iff b pipe :
  hitsPipe b pipe = true <->
  ((pipe_x pipe < bird_x b + 15) /\ (bird_x b - 15 < pipe_x pipe + 80) /\
   ((bird_y b - 15 < pipe_topHeight pipe) \/
    (pipe_bottomY pipe < bird_y b + 15)))%Q.
Proof.
  unfold hitsPipe, PIPE_WIDTH. half_size.
  destruct (Qgt_bool _ _) eqn:E1; simpl.
  2:{ split; [discriminate|]. intros (H & _).
      apply not_true_iff_false in E1. exfalso; apply E1.
      apply Qgt_bool_iff. lra. }
  apply Qgt_bool_iff in E1.
  destruct (Qlt_bool (bird_x b - _) _) eqn:E2.
  2:{ split; [discriminate|]. intros (_ & H & _).
      apply Qlt_bool_false in E2. lra. }
  apply Qlt_bool_iff in E2.
  destruct (Qlt_bool (bird_y b - _) _) eqn:E3; simpl.
  { apply Qlt_bool_iff in E3. split; [|reflexivity]. intros _.
    lra. }
  apply Qlt_bool_false in E3.
  destruct (Qgt_bool (bird_y b + _) _) eqn:E4.
  { apply Qgt_bool_iff in E4. split; [|reflexivity]. intros _.
    lra. }
  apply Qlt_bool_false in E4.
  split; [discriminate|]. intros (_ & _ & [H|H]); lra.
Qed.

Lemma checkPipes_iff b l :
  checkPipes b l = true <-> exists pipe, pipe ∈ l /\ hitsPipe b pipe = true.
Proof.
  induction l as [|p l IH]; simpl.
  - split; [discriminate|]. intros (q & Hq & _). inversion Hq.
  - destruct (hitsPipe b p) eqn:E.
    + split; [|reflexivity]. intros _. exists p. split; [left|exact E].
    + rewrite IH. split.
      * intros (q & Hq & Hh). exists q. split; [right; exact Hq|exact Hh].
      * intros (q & Hq & Hh). inversion Hq; subst; [congruence|].
        exists q. split; assumption.
Qed.

(** C1.  [checkCollision] answers [true] exactly when the bird's lower edge
    is at or below the ground line ([y + 15 >= 550]), or its upper edge is at
    or above the ceiling ([y - 15 <= 0]), or some pipe whose horizontal span
    strictly overlaps the bird's has the bird's vertical span not inside its
    gap.  So a bird clear of ground and ceiling and inside the gap of every
    overlapping pipe does not collide.  The predicate is a function of the
    bird and the pipes alone, and a frame whose test is negative leaves the
    world as it was. *)
Theorem checkCollision_spec (b : Bird) (l : list Pipe) :
  (checkCollision b l = true <->
   (550 <= bird_y b + 15)%Q \/
   (bird_y b - 15 <= 0)%Q \/
   exists pipe, pipe ∈ l /\
     (pipe_x pipe < bird_x b + 15)%Q /\
     (bird_x b - 15 < pipe_x pipe + 80)%Q /\
     ((bird_y b - 15 < pipe_topHeight pipe)%Q \/
      (pipe_bottomY pipe < bird_y b + 15)%Q))
  /\ ((bird_y b + 15 < 550)%Q ->
      (0 < bird_y b - 15)%Q ->
      (forall pipe, pipe ∈ l ->
         (pipe_x pipe < bird_x b + 15)%Q ->
         (bird_x b - 15 < pipe_x pipe + 80)%Q ->
         (pipe_topHeight pipe <= bird_y b - 15)%Q /\
         (bird_y b + 15 <= pipe_bottomY pipe)%Q) ->
      checkCollision b l = false)
  /\ (forall score0 highScore0 w,
        checkCollision (bird w) (pipes w) = false ->
        collide score0 highScore0 w = w).
Proof.
  assert (Hiff : checkCollision b l = true <->
   (550 <= bird_y b + 15)%Q \/
   (bird_y b - 15 <= 0)%Q \/
   exists pipe, pipe ∈ l /\
     (pipe_x pipe < bird_x b + 15)%Q /\
     (bird_x b - 15 < pipe_x pipe + 80)%Q /\
     ((bird_y b - 15 < pipe_topHeight pipe)%Q \/
      (pipe_bottomY pipe < bird_y b + 15)%Q)).
  { unfold checkCollision, CANVAS_HEIGHT. half_size.
    destruct (Qge_bool _ _) eqn:E1.
    { apply Qge_bool_iff in E1. split; [|reflexivity]. intros _. left. lra. }
    destruct (Qle_bool _ _) eqn:E2.
    { apply Qle_bool_iff in E2. split; [|reflexivity]. intros _.
      right; left. lra. }
    apply not_true_iff_false in E1, E2.
    rewrite Qge_bool_iff in E1. rewrite Qle_bool_iff in E2.
    rewrite checkPipes_iff. split.
    - intros (q & Hq & Hh). right; right. exists q.
      split; [exact Hq|]. apply hitsPipe_iff, Hh.
    - intros [H|[H|(q & Hq & Hh)]].
      + exfalso; apply E1; lra.
      + exfalso; apply E2; lra.
      + exists q. split; [exact Hq|]. apply hitsPipe_iff, Hh. }
  split; [exact Hiff|split].
  - intros Hg Hc Hp. apply not_true_iff_false. rewrite Hiff.
    intros [H|[H|(q & Hq & H1 & H2 & H3)]]; [lra|lra|].
    destruct (Hp q Hq H1 H2) as [Ht Hb]. destruct H3; lra.
  - intros s h w Hw. unfold collide. rewrite Hw. reflexivity.
Qed.

(** ** The pipe loop *)

Lemma insert_middle {A} (l1 l2 : list A) (x y : A) :
  <[length l1 := y]> (l1 ++ x :: l2) = l1 ++ y :: l2.
Proof. induction l1 as [|a l1 IH]; simpl; [reflexivity|]. f_equal. exact IH. Qed.

Lemma offScreen_stepPipe bx pipe :
  offScreen (stepPipe bx pipe) = offScreen (advancePipe pipe).
Proof. unfold stepPipe. destruct (scores bx pipe); reflexivity. Qed.

(** One turn of the loop, on the pipe in the middle of the array. *)
Lemma pipeTurn_middle w l1 pipe l2 :
  pipes w = l1 ++ pipe :: l2 ->
  pipeTurn (length l1) w =
  Some (mkWorld (gameState w)
          (score w + (if scores (bird_x (bird w)) pipe then 1 else 0))
          (highScore w) (bird w)
          (l1 ++ pipesAfter (bird_x (bird w)) [pipe] ++ l2)
          (particles w) (localStorage w) (randomCalls w)).
Proof.
  intros Hp. unfold pipeTurn. rewrite Hp, list_lookup_middle by reflexivity.
  unfold pipesAfter. cbn [List.map List.filter].
  rewrite offScreen_stepPipe. unfold stepPipe, scores.
  change (pipe_x pipe - PIPE_SPEED)%Q with (pipe_x (advancePipe pipe)).
  change (pipe_passed pipe) with (pipe_passed (advancePipe pipe)).
  destruct w as [g sc h b ps pt ls rc].
  cbn [pipes bird score gameState highScore particles localStorage
       randomCalls set_pipes setScore] in *.
  subst ps.
  destruct (negb (pipe_passed (advancePipe pipe)) && _) eqn:E1;
    cbn [pipes bird score gameState highScore particles localStorage
         randomCalls set_pipes setScore];
    unfold offScreen;
    change (pipe_x (markPassed (advancePipe pipe)))
      with (pipe_x (advancePipe pipe));
    destruct (Qlt_bool (pipe_x (advancePipe pipe) + PIPE_WIDTH) 0) eqn:E2;
    cbn [negb app];
    rewrite ?list_insert_insert_eq, ?insert_middle, ?delete_middle,
            ?Z.add_0_r;
    reflexivity.
Qed.

Lemma pipesAfter_app bx l1 l2 :
  pipesAfter bx (l1 ++ l2) = pipesAfter bx l1 ++ pipesAfter bx l2.
Proof. unfold pipesAfter. rewrite List.map_app. apply List.filter_app. Qed.

Lemma gained_snoc bx l pipe :
  gained bx (l ++ [pipe]) = gained bx l + (if scores bx pipe then 1 else 0).
Proof.
  unfold gained. rewrite List.filter_app, length_app. cbn [List.filter].
  destruct (scores bx pipe); cbn [length]; lia.
Qed.

(** The loop started at index [length l1 - 1] has treated [l1] when it ends
    and has left the rest of the array alone. *)
Lemma updatePipes_app l1 :
  forall w l2,
    pipes w = l1 ++ l2 ->
    updatePipes (length l1) w =
    Some (mkWorld (gameState w)
            (score w + gained (bird_x (bird w)) l1)
            (highScore w) (bird w)
            (pipesAfter (bird_x (bird w)) l1 ++ l2)
            (particles w) (localStorage w) (randomCalls w)).
Proof.
  induction l1 as [|pipe l IH] using rev_ind; intros w l2 Hp.
  - destruct w; cbn in *. subst. unfold gained. cbn.
    rewrite Z.add_0_r. reflexivity.
  - rewrite length_app, Nat.add_1_r. cbn [updatePipes].
    rewrite <- app_assoc in Hp. cbn [app] in Hp.
    rewrite (pipeTurn_middle w l pipe l2 Hp). cbn [mbind option_bind].
    erewrite IH by reflexivity.
    cbn [pipes bird score gameState highScore particles localStorage
         randomCalls].
    rewrite pipesAfter_app, gained_snoc, <- app_assoc. do 2 f_equal. lia.
Qed.

(** The pipe loop never throws, and this is what it does. *)
Lemma updatePipes_all w :
  updatePipes (length (pipes w)) w =
  Some (mkWorld (gameState w)
          (score w + gained (bird_x (bird w)) (pipes w))
          (highScore w) (bird w)
          (pipesAfter (bird_x (bird w)) (pipes w))
          (particles w) (localStorage w) (randomCalls w)).
Proof.
  rewrite (updatePipes_app (pipes w) w []) by (symmetry; apply app_nil_r).
  rewrite app_nil_r. reflexivity.
Qed.

(** ** The particle loop *)

Lemma particleTurn_middle w l1 p l2 :
  particles w = l1 ++ p :: l2 ->
  particleTurn (length l1) w =
  Some (set_particles (l1 ++ particlesAfter [p] ++ l2) w).
Proof.
  intros Hp. unfold particleTurn.
  rewrite Hp, list_lookup_middle by reflexivity.
  unfold particlesAfter. cbn [List.map List.filter].
  destruct w as [g sc h b ps pt ls rc].
  cbn [particles set_particles] in *. subst pt.
  destruct (particle_life (advanceParticle p) <=? 0) eqn:E;
    cbn [particles set_particles negb app];
    rewrite ?insert_middle, ?delete_middle; reflexivity.
Qed.

Lemma particlesAfter_app l1 l2 :
  particlesAfter (l1 ++ l2) = particlesAfter l1 ++ particlesAfter l2.
Proof. unfold particlesAfter. rewrite List.map_app. apply List.filter_app. Qed.

Lemma updateParticles_app l1 :
  forall w l2,
    particles w = l1 ++ l2 ->
    updateParticles (length l1) w =
    Some (set_particles (particlesAfter l1 ++ l2) w).
Proof.
  induction l1 as [|p l IH] using rev_ind; intros w l2 Hp.
  - destruct w; cbn in *. subst. reflexivity.
  - rewrite length_app, Nat.add_1_r. cbn [updateParticles].
    rewrite <- app_assoc in Hp. cbn [app] in Hp.
    rewrite (particleTurn_middle w l p l2 Hp). cbn [mbind option_bind].
    erewrite IH by (destruct w; reflexivity).
    rewrite particlesAfter_app, <- app_assoc. destruct w; reflexivity.
Qed.

(** The particle loop never throws, and this is what it does. *)
Lemma updateParticles_all w :
  updateParticles (length (particles w)) w =
  Some (set_particles (particlesAfter (particles w)) w).
Proof.
  rewrite (updateParticles_app (particles w) w [])
    by (symmetry; apply app_nil_r).
  rewrite app_nil_r. reflexivity.
Qed.

(** ** [addParticles] *)

Lemma onlyParticles_refl w : onlyParticles w w.
Proof. repeat split. Qed.

Lemma onlyParticles_trans w1 w2 w3 :
  onlyParticles w1 w2 -> onlyParticles w2 w3 -> onlyParticles w1 w3.
Proof.
  unfold onlyParticles.
  intros (?&?&?&?&?&?) (?&?&?&?&?&?). repeat split; congruence.
Qed.

Lemma pushParticle_spec x y w :
  onlyParticles w (pushParticle x y w) /\
  exists p, particles (pushParticle x y w) = particles w ++ [p] /\
            spawnedAt x y p.
Proof.
  destruct w. split; [repeat split|].
  eexists. split; [reflexivity|repeat split].
Qed.

Lemma addParticles_spec x y count :
  forall w,
    onlyParticles w (addParticles x y count w) /\
    exists new,
      particles (addParticles x y count w) = particles w ++ new /\
      length new = count /\
      Forall (spawnedAt x y) new.
Proof.
  induction count as [|n IH]; intros w; cbn [addParticles].
  - split; [apply onlyParticles_refl|]. exists [].
    rewrite app_nil_r. repeat split. constructor.
  - destruct (IH (pushParticle x y w)) as (Ho & new & Hn & Hl & Hf).
    destruct (pushParticle_spec x y w) as (Ho1 & p & Hp & Hs).
    split; [eapply onlyParticles_trans; eassumption|].
    exists (p :: new). rewrite Hn, Hp, <- app_assoc.
    split; [reflexivity|]. split; [cbn [length]; congruence|].
    constructor; assumption.
Qed.

(** ** The activate event *)

(** C4.  An activate event in state [menu] or [gameOver] moves to [playing],
    puts the bird back at [x = 150], [y = CANVAS_HEIGHT / 2 = 300] with
    velocity 0 and rotation 0, empties the pipes and the particles and sets
    the score to 0.  No activate event leads from [menu] to [gameOver] or
    from [gameOver] to [menu]. *)
Theorem jump_from_menu_or_gameOver (w : World) :
  gameState w = menu \/ gameState w = gameOver ->
  gameState (jump w) = playing /\
  bird (jump w) = mkBird 150%Q (CANVAS_HEIGHT / 2)%Q 0%Q 0%Q /\
  (bird_x (bird (jump w)) == 150)%Q /\
  (bird_y (bird (jump w)) == 300)%Q /\
  (bird_velocity (bird (jump w)) == 0)%Q /\
  (bird_rotation (bird (jump w)) == 0)%Q /\
  pipes (jump w) = [] /\
  particles (jump w) = [] /\
  score (jump w) = 0 /\
  (gameState w = menu -> gameState (jump w) <> gameOver) /\
  (gameState w = gameOver -> gameState (jump w) <> menu).
Proof.
  intros Hg. unfold jump.
  destruct Hg as [Hg|Hg]; rewrite Hg; destruct w; cbn;
    repeat split; discriminate.
Qed.

(** C5.  An activate event in state [playing] overwrites the bird's velocity
    with [JUMP_FORCE = -12], whatever it was, pushes exactly 5 particles at
    the bird's left and lower edge ([x - 15], [y + 15]), and leaves the
    state [playing]; the bird's position, the pipes and the score stay. *)
Theorem jump_while_playing (w : World) :
  gameState w = playing ->
  bird_velocity (bird (jump w)) = JUMP_FORCE /\
  JUMP_FORCE = (-12)%Q /\
  gameState (jump w) = playing /\
  bird_x (bird (jump w)) = bird_x (bird w) /\
  bird_y (bird (jump w)) = bird_y (bird w) /\
  pipes (jump w) = pipes w /\
  score (jump w) = score w /\
  exists new,
    particles (jump w) = particles w ++ new /\
    length new = 5%nat /\
    Forall (fun p =>
              spawnedAt (bird_x (bird w) - BIRD_SIZE / 2)%Q
                        (bird_y (bird w) + BIRD_SIZE / 2)%Q p /\
              (particle_x p == bird_x (bird w) - 15)%Q /\
              (particle_y p == bird_y (bird w) + 15)%Q) new.
Proof.
  intros Hg. unfold jump. rewrite Hg.
  match goal with
  | |- context [addParticles ?x ?y 5 ?w0] =>
      destruct (addParticles_spec x y 5 w0)
        as ((Ho1 & Ho2 & Ho3 & Ho4 & Ho5 & Ho6) & new & Hn & Hl & Hf)
  end.
  rewrite Ho1, Ho2, Ho4, Ho5, Hn.
  destruct w as [g sc h b ps pt ls rc]. cbn in Hg. subst g.
  cbn [bird pipes score particles gameState set_bird bird_x bird_y
       bird_velocity] in *.
  repeat split. exists new. repeat split; [exact Hl|].
  eapply Forall_impl; [exact Hf|].
  intros p (Hx & Hy & Hlife & Hmax).
  split; [repeat split; assumption|]. rewrite Hx, Hy.
  split; apply Qplus_comp; reflexivity.
Qed.

(** ** One frame, step by step *)

Lemma simulate_eq score0 highScore0 w :
  simulate score0 highScore0 w =
  Some (collide score0 highScore0 (spawnPipe (afterPipes w))).
Proof.
  unfold simulate. rewrite updatePipes_all. cbn [mbind option_bind].
  destruct w; reflexivity.
Qed.

(** The world just before the particle loop of a frame in state [playing]. *)
Lemma gameLoop_playing w :
  gameState w = playing ->
  gameLoop true true w =
  Some (let w1 := collide (score w) (highScore w) (spawnPipe (afterPipes w)) in
        set_particles (particlesAfter (particles w1)) w1).
Proof.
  intros Hg. unfold gameLoop. cbn [negb]. rewrite Hg, simulate_eq.
  cbn [mbind option_bind]. apply updateParticles_all.
Qed.

Lemma gameLoop_not_playing w :
  gameState w <> playing ->
  gameLoop true true w = Some (set_particles (particlesAfter (particles w)) w).
Proof.
  intros Hg. unfold gameLoop. cbn [negb].
  destruct (gameState w); try congruence;
    cbn [mbind option_bind]; apply updateParticles_all.
Qed.

Lemma gameLoop_no_surface canvas ctx w :
  canvas && ctx = false -> gameLoop canvas ctx w = Some w.
Proof. unfold gameLoop. destruct canvas, ctx; cbn; congruence. Qed.

Lemma spawnPipe_spec w :
  gameState (spawnPipe w) = gameState w /\
  score (spawnPipe w) = score w /\
  highScore (spawnPipe w) = highScore w /\
  bird (spawnPipe w) = bird w /\
  particles (spawnPipe w) = particles w /\
  localStorage (spawnPipe w) = localStorage w /\
  (pipes (spawnPipe w) = pipes w \/
   pipes (spawnPipe w) = pipes w ++ [fst (generatePipe w)]).
Proof.
  unfold spawnPipe.
  destruct (match last (pipes w) with
            | Some pipe => Qlt_bool (pipe_x pipe) (CANVAS_WIDTH - 300)
            | None => true
            end); destruct w; cbn; repeat split; auto.
Qed.

Lemma collide_miss score0 highScore0 w :
  checkCollision (bird w) (pipes w) = false ->
  collide score0 highScore0 w = w.
Proof. intros H. unfold collide. rewrite H. reflexivity. Qed.

Lemma collide_hit score0 highScore0 w :
  checkCollision (bird w) (pipes w) = true ->
  let w' := collide score0 highScore0 w in
  gameState w' = gameOver /\
  score w' = score w /\ bird w' = bird w /\ pipes w' = pipes w /\
  highScore w' =
    (if score_gt score0 highScore0 then Num score0 else highScore w) /\
  localStorage w' =
    (if score_gt score0 highScore0 then Some (toString score0)
     else localStorage w) /\
  exists new,
    particles w' = particles w ++ new /\ length new = 15%nat /\
    Forall (spawnedAt (bird_x (bird w)) (bird_y (bird w))) new.
Proof.
  intros H. unfold collide. rewrite H.
  match goal with
  | |- context [addParticles ?x ?y 15 ?w0] =>
      destruct (addParticles_spec x y 15 w0)
        as ((Ho1 & Ho2 & Ho3 & Ho4 & Ho5 & Ho6) & new & Hn & Hl & Hf);
      remember (addParticles x y 15 w0) as w1 eqn:Hw1; clear Hw1
  end.
  assert (Hb : bird (setGameState gameOver w) = bird w) by (destruct w; reflexivity).
  rewrite Hb in *.
  assert (Hq : forall w2 : World,
             gameState w2 = gameState w1 /\ score w2 = score w1 /\
             bird w2 = bird w1 /\ pipes w2 = pipes w1 /\
             particles w2 = particles w1 ->
             gameState w2 = gameOver /\ score w2 = score w /\
             bird w2 = bird w /\ pipes w2 = pipes w /\
             exists new, particles w2 = particles w ++ new /\
                         length new = 15%nat /\
                         Forall (spawnedAt (bird_x (bird w)) (bird_y (bird w))) new).
  { intros w2 (E1 & E2 & E3 & E4 & E5).
    rewrite E1, E2, E3, E4, E5, Ho1, Ho2, Ho4, Ho5, Hn.
    destruct w; cbn. repeat split. exists new. repeat split; assumption. }
  cbv zeta.
  destruct (score_gt score0 highScore0).
  - destruct (Hq (localStorage_setItem (toString score0)
                    (setHighScore (Num score0) w1)))
      as (A1 & A2 & A3 & A4 & A5); [destruct w1; repeat split|].
    repeat split; try assumption; destruct w1; reflexivity.
  - destruct (Hq w1) as (A1 & A2 & A3 & A4 & A5); [repeat split|].
    repeat split; assumption.
Qed.

Lemma collide_keeps score0 highScore0 w :
  score (collide score0 highScore0 w) = score w /\
  bird (collide score0 highScore0 w) = bird w /\
  pipes (collide score0 highScore0 w) = pipes w.
Proof.
  destruct (checkCollision (bird w) (pipes w)) eqn:E.
  - destruct (collide_hit score0 highScore0 w E) as (_ & A & B & C & _).
    auto.
  - rewrite collide_miss by exact E. auto.
Qed.

(** A frame in state [playing] never throws; its effect on score, bird and
    pipes. *)
Lemma frame_playing w :
  gameState w = playing ->
  exists w',
    gameLoop true true w = Some w' /\
    score w' = score w + gained (bird_x (bird w)) (pipes w) /\
    bird w' = updateBird (bird w) /\
    (pipes w' = pipesAfter (bird_x (bird w)) (pipes w) \/
     pipes w' = pipesAfter (bird_x (bird w)) (pipes w)
                ++ [fst (generatePipe (afterPipes w))]).
Proof.
  intros Hg. eexists. split; [apply gameLoop_playing, Hg|].
  cbv zeta.
  set (w0 := spawnPipe (afterPipes w)).
  destruct (collide_keeps (score w) (highScore w) w0) as (A & B & C).
  destruct (spawnPipe_spec (afterPipes w)) as (_ & S2 & _ & S4 & _ & _ & S7).
  fold w0 in S2, S4, S7.
  set (w1 := collide (score w) (highScore w) w0) in *.
  assert (E : forall l, score (set_particles l w1) = score w1 /\
                        bird (set_particles l w1) = bird w1 /\
                        pipes (set_particles l w1) = pipes w1)
    by (intros; destruct w1; repeat split).
  destruct (E (particlesAfter (particles w1))) as (E1 & E2 & E3).
  rewrite E1, E2, E3, A, B, C, S2, S4.
  repeat split. exact S7.
Qed.

(** ** Scoring *)

Lemma scores_iff bx pipe :
  scores bx pipe = true <->
  pipe_passed pipe = false /\ (pipe_x pipe - 3 + 80 < bx)%Q.
Proof.
  unfold scores. rewrite andb_true_iff, negb_true_iff, Qlt_bool_iff.
  reflexivity.
Qed.

Lemma stepPipe_scored bx pipe :
  scores bx pipe = true -> pipe_passed (stepPipe bx pipe) = true.
Proof. intros H. unfold stepPipe. rewrite H. reflexivity. Qed.

Lemma stepPipe_passed bx pipe :
  pipe_passed pipe = true ->
  scores bx pipe = false /\ pipe_passed (stepPipe bx pipe) = true.
Proof.
  intros H. assert (E : scores bx pipe = false)
    by (unfold scores; rewrite H; reflexivity).
  split; [exact E|]. unfold stepPipe. rewrite E. exact H.
Qed.

Lemma increments_passed bx n :
  forall pipe, pipe_passed pipe = true -> increments bx n pipe = 0.
Proof.
  induction n as [|n IH]; intros pipe H; cbn [increments]; [reflexivity|].
  destruct (stepPipe_passed bx pipe H) as [E1 E2].
  rewrite E1, (IH _ E2). reflexivity.
Qed.

Lemma increments_le_1 bx n :
  forall pipe, 0 <= increments bx n pipe <= 1.
Proof.
  induction n as [|n IH]; intros pipe; cbn [increments]; [lia|].
  destruct (scores bx pipe) eqn:E.
  - rewrite (increments_passed bx n _ (stepPipe_scored bx pipe E)). lia.
  - specialize (IH (stepPipe bx pipe)). lia.
Qed.

Lemma gained_member bx l pipe :
  pipe ∈ l -> scores bx pipe = true -> 1 <= gained bx l.
Proof.
  intros Hin Hs. unfold gained.
  assert (Hf : List.In pipe (List.filter (scores bx) l))
    by (apply List.filter_In; split; [apply list_elem_of_In, Hin|exact Hs]).
  destruct (List.filter (scores bx) l); [destruct Hf|cbn [length]; lia].
Qed.

(** C2.  In a frame in state [playing] the score grows by the number of
    pipes that were not yet passed and whose trailing edge, after this
    frame's move to the left, is strictly left of the bird's [x]; each such
    pipe is marked passed.  The count runs over all pipes the frame started
    with, those it splices out included: a pipe is scored before it is
    discarded.  A pipe marked passed never scores again, so one pipe earns
    at most one point however many frames it lives. *)
Theorem score_on_passing (w : World) :
  gameState w = playing ->
  exists w',
    gameLoop true true w = Some w' /\
    score w' =
      score w
      + Z.of_nat (length (List.filter (scores (bird_x (bird w))) (pipes w))) /\
    (exists new,
       pipes w' =
         List.filter (fun pipe => negb (offScreen pipe))
                     (List.map (stepPipe (bird_x (bird w))) (pipes w))
         ++ new) /\
    (forall bx pipe,
       scores bx pipe = true <->
       pipe_passed pipe = false /\ (pipe_x pipe - 3 + 80 < bx)%Q) /\
    (forall bx pipe,
       scores bx pipe = true -> pipe_passed (stepPipe bx pipe) = true) /\
    (forall bx pipe,
       pipe_passed pipe = true ->
       scores bx pipe = false /\ pipe_passed (stepPipe bx pipe) = true) /\
    (forall bx n pipe, 0 <= increments bx n pipe <= 1) /\
    (forall pipe,
       pipe ∈ pipes w ->
       scores (bird_x (bird w)) pipe = true ->
       offScreen (stepPipe (bird_x (bird w)) pipe) = true ->
       score w + 1 <= score w').
Proof.
  intros Hg. destruct (frame_playing w Hg) as (w' & Hw & Hs & _ & Hp).
  exists w'. split; [exact Hw|]. split; [exact Hs|]. split.
  { destruct Hp as [Hp|Hp]; rewrite Hp; [exists []|eexists];
      [rewrite app_nil_r|]; reflexivity. }
  split; [exact scores_iff|]. split; [exact stepPipe_scored|].
  split; [exact stepPipe_passed|]. split; [exact increments_le_1|].
  intros pipe Hin Hsc _. rewrite Hs.
  pose proof (gained_member _ _ _ Hin Hsc). unfold gained in *. lia.
Qed.

(** ** Removal of pipes *)

Lemma elem_of_pipesAfter bx l q :
  q ∈ pipesAfter bx l <->
  exists pipe, pipe ∈ l /\ q = stepPipe bx pipe /\ offScreen q = false.
Proof.
  unfold pipesAfter.
  rewrite list_elem_of_In, List.filter_In, List.in_map_iff, negb_true_iff.
  split.
  - intros ((pipe & Hq & Hin) & Hoff). exists pipe.
    rewrite list_elem_of_In. auto.
  - intros (pipe & Hin & Hq & Hoff). split; [|exact Hoff].
    exists pipe. rewrite <- list_elem_of_In. auto.
Qed.

Lemma pipe_x_stepPipe bx pipe :
  pipe_x (stepPipe bx pipe) = (pipe_x pipe - PIPE_SPEED)%Q.
Proof. unfold stepPipe. destruct (scores bx pipe); reflexivity. Qed.

Lemma offScreen_false pipe :
  offScreen pipe = false <-> (0 <= pipe_x pipe + 80)%Q.
Proof. apply Qlt_bool_false. Qed.

(** C3, as the code has it.  In a frame in state [playing] a pipe is spliced
    out exactly when its trailing edge [x + 80], after this frame's move, is
    strictly below 0; every pipe left in the array has its trailing edge at
    0 or to the right.  (So a pipe at [x = -1], trailing edge 79, stays.) *)
Theorem pipe_removed_iff_off_screen (w : World) :
  gameState w = playing ->
  exists w',
    gameLoop true true w = Some w' /\
    (forall pipe,
       pipe ∈ pipes w ->
       (stepPipe (bird_x (bird w)) pipe ∈ pipes w' <->
        (0 <= pipe_x pipe - 3 + 80)%Q)) /\
    (forall q, q ∈ pipes w' -> (0 <= pipe_x q + 80)%Q).
Proof.
  intros Hg. destruct (frame_playing w Hg) as (w' & Hw & _ & _ & Hp).
  exists w'. split; [exact Hw|].
  set (bx := bird_x (bird w)) in *.
  assert (Hnew : (0 <= pipe_x (fst (generatePipe (afterPipes w))) + 80)%Q)
    by (cbn; unfold CANVAS_WIDTH; lra).
  assert (Hall : forall q, q ∈ pipes w' -> (0 <= pipe_x q + 80)%Q).
  { intros q Hq. destruct Hp as [Hp|Hp]; rewrite Hp in Hq.
    - apply elem_of_pipesAfter in Hq as (pipe & _ & _ & Hoff).
      apply offScreen_false, Hoff.
    - apply elem_of_app in Hq as [Hq|Hq].
      + apply elem_of_pipesAfter in Hq as (pipe & _ & _ & Hoff).
        apply offScreen_false, Hoff.
      + apply list_elem_of_singleton in Hq. subst q. exact Hnew. }
  split; [|exact Hall].
  intros pipe Hin. split.
  - intros Hq. specialize (Hall _ Hq).
    rewrite pipe_x_stepPipe in Hall. exact Hall.
  - intros Hx.
    assert (Hq : stepPipe bx pipe ∈ pipesAfter bx (pipes w)).
    { apply elem_of_pipesAfter. exists pipe. split; [exact Hin|].
      split; [reflexivity|]. apply offScreen_false.
      rewrite pipe_x_stepPipe. exact Hx. }
    destruct Hp as [Hp|Hp]; rewrite Hp; [exact Hq|].
    apply elem_of_app. left. exact Hq.
Qed.

(** ** Frames outside [playing] *)

Lemma set_particles_only l w : onlyParticles w (set_particles l w).
Proof. destruct w. repeat split. Qed.

(** C8, as the code has it.  The bird, pipe, score and collision steps of a
    frame run only in state [playing]; the particle loop runs in every
    state.  A frame in state [menu] or [gameOver] leaves the state, the
    score, the best score, the bird, the pipes and the store as they were,
    and advances the particles: position += velocity, vertical velocity +=
    0.3, life -= 1, and the particles whose life is then [<= 0] are
    dropped. *)
Theorem frame_outside_playing (w : World) :
  gameState w = menu \/ gameState w = gameOver ->
  exists w',
    gameLoop true true w = Some w' /\
    gameState w' = gameState w /\
    score w' = score w /\
    highScore w' = highScore w /\
    bird w' = bird w /\
    pipes w' = pipes w /\
    localStorage w' = localStorage w /\
    randomCalls w' = randomCalls w /\
    particles w' =
      List.filter (fun p => negb (particle_life p <=? 0))
                  (List.map advanceParticle (particles w)) /\
    (forall p,
       particle_x (advanceParticle p)
         = (particle_x p + particle_velocity_x p)%Q /\
       particle_y (advanceParticle p)
         = (particle_y p + particle_velocity_y p)%Q /\
       particle_velocity_x (advanceParticle p) = particle_velocity_x p /\
       particle_velocity_y (advanceParticle p)
         = (particle_velocity_y p + (3 # 10))%Q /\
       particle_life (advanceParticle p) = particle_life p - 1 /\
       particle_maxLife (advanceParticle p) = particle_maxLife p).
Proof.
  intros Hg. eexists. split.
  { apply gameLoop_not_playing. destruct Hg as [Hg|Hg]; rewrite Hg; discriminate. }
  destruct w. repeat split.
Qed.

(** ** Particles of a run *)

Lemma particlesAfter_ok l :
  Forall (fun p => particle_life p <= particle_maxLife p /\
                   particle_maxLife p = 30) l ->
  Forall (fun p => particleOk p /\ particle_life p <= 29) (particlesAfter l).
Proof.
  intros Hl. unfold particlesAfter. apply Forall_forall. intros q Hq.
  apply list_elem_of_In, List.filter_In in Hq as (Hq & Hlife).
  apply List.in_map_iff in Hq as (p & <- & Hp).
  rewrite Forall_forall in Hl.
  destruct (Hl p) as (H1 & H2); [apply list_elem_of_In, Hp|].
  apply negb_true_iff, Z.leb_gt in Hlife.
  unfold particleOk. cbn [advanceParticle particle_life particle_maxLife] in *.
  lia.
Qed.

Lemma particleOk_weaken l :
  Forall particleOk l ->
  Forall (fun p => particle_life p <= particle_maxLife p /\
                   particle_maxLife p = 30) l.
Proof.
  intros H. eapply Forall_impl; [exact H|].
  unfold particleOk. intros p. lia.
Qed.

Lemma spawnedAt_ok x y l : Forall (spawnedAt x y) l -> Forall particleOk l.
Proof.
  intros H. eapply Forall_impl; [exact H|].
  unfold spawnedAt, particleOk. intros p (_ & _ & H1 & H2). lia.
Qed.

Lemma particlesAfter_particleOk l :
  Forall particleOk l -> Forall particleOk (particlesAfter l).
Proof.
  intros H. eapply Forall_impl; [apply particlesAfter_ok, particleOk_weaken, H|].
  intros p Hp. apply Hp.
Qed.

Lemma jump_particles w :
  Forall particleOk (particles w) -> Forall particleOk (particles (jump w)).
Proof.
  intros H. unfold jump. destruct (gameState w) eqn:Hg.
  - destruct w; constructor.
  - match goal with
    | |- context [addParticles ?x ?y 5 ?w0] =>
        destruct (addParticles_spec x y 5 w0) as (_ & new & Hn & _ & Hf)
    end.
    rewrite Hn. apply Forall_app. split.
    + destruct w; exact H.
    + eapply spawnedAt_ok, Hf.
  - destruct w; constructor.
Qed.

Lemma particles_set_particles l w : particles (set_particles l w) = l.
Proof. destruct w; reflexivity. Qed.

Lemma collide_particles score0 highScore0 w :
  Forall particleOk (particles w) ->
  Forall particleOk (particles (collide score0 highScore0 w)).
Proof.
  intros H. destruct (checkCollision (bird w) (pipes w)) eqn:E.
  - destruct (collide_hit score0 highScore0 w E)
      as (_&_&_&_&_&_& new & Hn & _ & Hf).
    rewrite Hn. apply Forall_app. split; [exact H|].
    eapply spawnedAt_ok, Hf.
  - rewrite collide_miss by exact E. exact H.
Qed.

(** A frame keeps the particles in order; one that runs the particle loop
    leaves none with more than 29 frames to live. *)
Lemma gameLoop_particles canvas ctx w w' :
  gameLoop canvas ctx w = Some w' ->
  Forall particleOk (particles w) ->
  Forall particleOk (particles w') /\
  (canvas && ctx = true ->
   Forall (fun p => particle_life p <= 29) (particles w')).
Proof.
  intros Hw H.
  destruct (canvas && ctx) eqn:Hs.
  2:{ rewrite gameLoop_no_surface in Hw by exact Hs.
      injection Hw as <-. split; [exact H|discriminate]. }
  apply andb_true_iff in Hs as [-> ->].
  assert (Hloop : forall w1,
            Forall particleOk (particles w1) ->
            Forall (fun p => particleOk p /\ particle_life p <= 29)
                   (particles (set_particles (particlesAfter (particles w1)) w1))).
  { intros w1 H1. rewrite particles_set_particles.
    apply particlesAfter_ok, particleOk_weaken, H1. }
  assert (Hend : Forall (fun p => particleOk p /\ particle_life p <= 29)
                        (particles w')).
  { destruct (gameState w) eqn:Hg.
    - rewrite gameLoop_not_playing in Hw by (rewrite Hg; discriminate).
      injection Hw as <-. apply Hloop, H.
    - rewrite gameLoop_playing in Hw by exact Hg.
      injection Hw as <-. cbv zeta. apply Hloop, collide_particles.
      destruct (spawnPipe_spec (afterPipes w)) as (_&_&_&_& E &_).
      rewrite E. exact H.
    - rewrite gameLoop_not_playing in Hw by (rewrite Hg; discriminate).
      injection Hw as <-. apply Hloop, H. }
  split; [|intros _]; (eapply Forall_impl; [exact Hend|]);
    intros p Hp; apply Hp.
Qed.

Lemma reachable_particles w :
  reachable w -> Forall particleOk (particles w).
Proof.
  induction 1 as [saved|w Hr IH|canvas ctx w w' Hr IH Hw].
  - constructor.
  - apply jump_particles, IH.
  - apply (gameLoop_particles canvas ctx w w' Hw IH).
Qed.

Lemma opacity_range p :
  particleOk p ->
  (0 < inject_Z (particle_life p) / inject_Z (particle_maxLife p))%Q /\
  (inject_Z (particle_life p) / inject_Z (particle_maxLife p) <= 1)%Q.
Proof.
  intros ((H1 & H2) & H3). rewrite H3 in *.
  unfold Qdiv, Qlt, Qle. cbn. lia.
Qed.

(** C10.  In every world of a run, hence after every frame's particle
    loop, each particle has [1 <= life <= maxLife] and [maxLife = 30], so
    the opacity [life / maxLife] drawn for it is positive and at most 1.
    The particle loop keeps exactly the advanced particles whose life is
    still positive (a particle whose life reaches 0 goes in that very
    frame), never throws, and touches neither the bird, nor the pipes, nor
    the score, nor the state. *)
Theorem particles_alive (w : World) :
  reachable w ->
  (forall p, p ∈ particles w ->
     1 <= particle_life p <= particle_maxLife p /\
     particle_maxLife p = 30 /\
     (0 < inject_Z (particle_life p) / inject_Z (particle_maxLife p))%Q /\
     (inject_Z (particle_life p) / inject_Z (particle_maxLife p) <= 1)%Q) /\
  (forall canvas ctx w',
     gameLoop canvas ctx w = Some w' ->
     forall p, p ∈ particles w' ->
       1 <= particle_life p <= particle_maxLife p /\
       particle_maxLife p = 30) /\
  exists w',
    updateParticles (length (particles w)) w = Some w' /\
    particles w' =
      List.filter (fun p => negb (particle_life p <=? 0))
                  (List.map advanceParticle (particles w)) /\
    (forall p, p ∈ particles w' -> 1 <= particle_life p) /\
    bird w' = bird w /\ pipes w' = pipes w /\
    score w' = score w /\ gameState w' = gameState w.
Proof.
  intros Hr. pose proof (reachable_particles w Hr) as Hok.
  split; [|split].
  - intros p Hp. rewrite Forall_forall in Hok. specialize (Hok p Hp).
    destruct (opacity_range p Hok) as [O1 O2].
    destruct Hok as (H1 & H2). auto.
  - intros canvas ctx w' Hw p Hp.
    destruct (gameLoop_particles canvas ctx w w' Hw Hok) as [Hok' _].
    rewrite Forall_forall in Hok'. apply (Hok' p Hp).
  - eexists. split; [apply updateParticles_all|].
    rewrite particles_set_particles.
    split; [reflexivity|]. split; [|destruct w; repeat split].
    intros p Hp.
    apply list_elem_of_In, List.filter_In in Hp as (_ & Hlife).
    apply negb_true_iff, Z.leb_gt in Hlife. lia.
Qed.

(** ** Sessions *)

Lemma frames_reachable n :
  forall w w', reachable w -> frames n w = Some w' -> reachable w'.
Proof.
  induction n as [|n IH]; intros w w' Hr Hw; cbn [frames] in Hw.
  - injection Hw as <-. exact Hr.
  - destruct (gameLoop true true w) as [w1|] eqn:E; [|discriminate].
    cbn [mbind option_bind] in Hw.
    apply (IH w1 w'); [|exact Hw]. exact (reach_frame _ _ _ _ Hr E).
Qed.

Lemma play_reachable script :
  forall w w', reachable w -> play script w = Some w' -> reachable w'.
Proof.
  induction script as [|n rest IH]; intros w w' Hr Hw; cbn [play] in Hw.
  - injection Hw as <-. exact Hr.
  - destruct (frames n w) as [w1|] eqn:E; [|discriminate].
    cbn [mbind option_bind] in Hw.
    apply (IH (jump w1) w'); [|exact Hw].
    apply reach_jump, (frames_reachable n w w1 Hr E).
Qed.

Lemma session_reachable script n w :
  session script n = Some w -> reachable w.
Proof.
  unfold session. intros Hw.
  destruct (play script (jump (initialWorld None))) as [w1|] eqn:E;
    [|discriminate].
  cbn [mbind option_bind] in Hw.
  apply (frames_reachable n w1 w); [|exact Hw].
  apply (play_reachable script (jump (initialWorld None)) w1); [|exact E].
  apply reach_jump, reach_mount.
Qed.

(** ** Binary64 rounding

    What the bounds on [generatePipe] need of the rounding: it never
    crosses an integer. *)

Lemma roundTiesToEven_le (q : Q) (k : Z) :
  (q <= inject_Z k)%Q -> Binary64.roundTiesToEven q <= k.
Proof.
  intros H. unfold Binary64.roundTiesToEven.
  pose proof (Qfloor_le q) as Hf.
  assert (Hk : Qfloor q <= k).
  { rewrite <- (Qfloor_Z k). apply Qfloor_resp_le, H. }
  destruct (Z.eq_dec (Qfloor q) k) as [E|E].
  - assert (Hq : (q - inject_Z (Qfloor q) == 0)%Q).
    { rewrite E in Hf |- *. lra. }
    assert (Hc : (q - inject_Z (Qfloor q) ?= 1 # 2)%Q = Lt).
    { apply Qlt_alt. rewrite Hq. reflexivity. }
    rewrite Hc. lia.
  - destruct (q - inject_Z (Qfloor q) ?= 1 # 2)%Q;
      [destruct (Z.even (Qfloor q))| |]; lia.
Qed.

Lemma roundTiesToEven_ge (q : Q) (k : Z) :
  (inject_Z k <= q)%Q -> k <= Binary64.roundTiesToEven q.
Proof.
  intros H. unfold Binary64.roundTiesToEven.
  assert (Hk : k <= Qfloor q).
  { rewrite <- (Qfloor_Z k). apply Qfloor_resp_le, H. }
  destruct (q - inject_Z (Qfloor q) ?= 1 # 2)%Q;
    [destruct (Z.even (Qfloor q))| |]; lia.
Qed.

Lemma ilog2_le_52 (x : Q) :
  (Qabs x <= 4503599627370496)%Q -> Binary64.ilog2 x <= 52.
Proof.
  intros H. unfold Binary64.ilog2.
  assert (Hk : Z.log2 (Z.abs (Qnum x)) - Z.log2 (Z.pos (Qden x)) <= 52).
  { destruct x as [n d]. unfold Qabs, Qle in H. cbn [Qnum Qden] in H |- *.
    assert (Hn : Z.abs n <= Z.pos d * 2 ^ 52) by (cbn in H |- *; lia).
    apply Z.log2_le_mono in Hn.
    rewrite Z.log2_mul_pow2 in Hn by lia. lia. }
  destruct (Qle_bool _ _); lia.
Qed.

Lemma exponent_nonpos (x : Q) :
  (Qabs x <= 4503599627370496)%Q -> Binary64.exponent x <= 0.
Proof.
  intros H. unfold Binary64.exponent. apply ilog2_le_52 in H. lia.
Qed.

(** Numbers that are equal as fractions round to the same number. *)
Lemma round64_comp (x y : Q) :
  (x == y)%Q -> Binary64.round64 x = Binary64.round64 y.
Proof.
  intros H. unfold Binary64.round64. rewrite (Qred_complete x y H).
  reflexivity.
Qed.

(** With [e <= 0], [2 ^ e] is one over the integer [2 ^ (- e)]. *)
Lemma pow2_nonpos (e : Z) :
  e <= 0 ->
  (0 < inject_Z (2 ^ (- e)))%Q /\ (2 ^ e == / inject_Z (2 ^ (- e)))%Q.
Proof.
  intros He. split.
  - change 0%Q with (inject_Z 0). rewrite <- Zlt_Qlt.
    apply Z.pow_pos_nonneg; lia.
  - rewrite (Zpower_Qpower 2 (- e)) by lia.
    rewrite <- Qpower_opp. rewrite Z.opp_involutive. reflexivity.
Qed.

Lemma div_pow2 (x : Q) (e : Z) (P : Q) :
  (2 ^ e == / P)%Q -> (x / 2 ^ e == x * P)%Q.
Proof.
  intros HE. unfold Qdiv. apply Qmult_comp; [reflexivity|].
  transitivity (/ / P)%Q; [apply Qinv_comp, HE | apply Qinv_involutive].
Qed.

(** Rounding never crosses an integer: below [2 ^ 52] in magnitude every
    integer is a binary64 number. *)
Lemma round64_le_int (x : Q) (c : Z) :
  (Qabs x <= 4503599627370496)%Q ->
  (x <= inject_Z c)%Q -> (Binary64.round64 x <= inject_Z c)%Q.
Proof.
  intros Hb Hc. unfold Binary64.round64.
  pose proof (Qred_correct x) as Hx.
  set (x' := Qred x) in *.
  destruct (Qeq_bool x' 0) eqn:E0.
  - apply Qeq_bool_iff in E0. rewrite <- Hx, E0 in Hc. exact Hc.
  - cbv zeta. rewrite Qred_correct.
    assert (He : Binary64.exponent x' <= 0).
    { apply exponent_nonpos. rewrite Hx. exact Hb. }
    destruct (pow2_nonpos _ He) as [HP HE].
    set (e := Binary64.exponent x') in *.
    set (P := inject_Z (2 ^ (- e))) in *.
    assert (Hd : (x' / 2 ^ e == x' * P)%Q) by exact (div_pow2 x' e P HE).
    assert (Hq : (x' / 2 ^ e <= inject_Z (c * 2 ^ (- e)))%Q).
    { apply (Qle_trans _ (x' * P)); [apply Qle_lteq; right; exact Hd|].
      apply (Qle_trans _ (inject_Z c * P));
        [|rewrite inject_Z_mult; apply Qle_refl].
      apply Qmult_le_compat_r; [|apply Qlt_le_weak, HP].
      apply (Qle_trans _ x); [apply Qle_lteq; right; exact Hx | exact Hc]. }
    apply roundTiesToEven_le in Hq.
    apply (Qle_trans _ (inject_Z (Binary64.roundTiesToEven (x' / 2 ^ e)) / P));
      [apply Qle_lteq; right; apply Qmult_comp; [reflexivity | exact HE]|].
    apply Qle_shift_div_r; [exact HP|].
    apply (Qle_trans _ (inject_Z (c * 2 ^ (- e))));
      [rewrite <- Zle_Qle; exact Hq|].
    rewrite inject_Z_mult; apply Qle_refl.
Qed.

Lemma round64_ge_int (x : Q) (c : Z) :
  (Qabs x <= 4503599627370496)%Q ->
  (inject_Z c <= x)%Q -> (inject_Z c <= Binary64.round64 x)%Q.
Proof.
  intros Hb Hc. unfold Binary64.round64.
  pose proof (Qred_correct x) as Hx.
  set (x' := Qred x) in *.
  destruct (Qeq_bool x' 0) eqn:E0.
  - apply Qeq_bool_iff in E0. rewrite <- Hx, E0 in Hc. exact Hc.
  - cbv zeta. rewrite Qred_correct.
    assert (He : Binary64.exponent x' <= 0).
    { apply exponent_nonpos. rewrite Hx. exact Hb. }
    destruct (pow2_nonpos _ He) as [HP HE].
    set (e := Binary64.exponent x') in *.
    set (P := inject_Z (2 ^ (- e))) in *.
    assert (Hd : (x' / 2 ^ e == x' * P)%Q) by exact (div_pow2 x' e P HE).
    assert (Hq : (inject_Z (c * 2 ^ (- e)) <= x' / 2 ^ e)%Q).
    { apply (Qle_trans _ (x' * P));
        [|apply Qle_lteq; right; symmetry; exact Hd].
      apply (Qle_trans _ (inject_Z c * P));
        [rewrite inject_Z_mult; apply Qle_refl|].
      apply Qmult_le_compat_r; [|apply Qlt_le_weak, HP].
      apply (Qle_trans _ x); [exact Hc | apply Qle_lteq; right; symmetry; exact Hx]. }
    apply roundTiesToEven_ge in Hq.
    apply (Qle_trans _ (inject_Z (Binary64.roundTiesToEven (x' / 2 ^ e)) / P));
      [|apply Qle_lteq; right; apply Qmult_comp;
        [reflexivity | symmetry; exact HE]].
    apply Qle_shift_div_l; [exact HP|].
    apply (Qle_trans _ (inject_Z (c * 2 ^ (- e))));
      [rewrite inject_Z_mult; apply Qle_refl|].
    rewrite <- Zle_Qle; exact Hq.
Qed.

(** A sum, difference or product between two integers [a <= b] rounds to a
    number between them. *)
Lemma round64_between (x : Q) (a b : Z) :
  -4503599627370496 <= a -> b <= 4503599627370496 ->
  (inject_Z a <= x)%Q -> (x <= inject_Z b)%Q ->
  (inject_Z a <= Binary64.round64 x)%Q /\ (Binary64.round64 x <= inject_Z b)%Q.
Proof.
  intros Ha Hb Hax Hxb.
  assert (H : (Qabs x <= 4503599627370496)%Q).
  { apply Qabs_Qle_condition. rewrite Zle_Qle in Ha, Hb.
    change (inject_Z 4503599627370496) with 4503599627370496%Q in Hb.
    change (inject_Z (-4503599627370496)) with (-4503599627370496)%Q in Ha.
    split; lra. }
  split; [apply round64_ge_int | apply round64_le_int]; assumption.
Qed.

Lemma generatePipe_binary64 (r : Q) :
  (0 <= r)%Q -> (r < 1)%Q ->
  let pipe := Binary64.generatePipe r in
  pipe_x pipe = 800%Q /\
  pipe_passed pipe = false /\
  pipe_topHeight pipe
  = Binary64.add (Binary64.mul r (350 - 50)) 50 /\
  pipe_bottomY pipe = Binary64.add (pipe_topHeight pipe) 200 /\
  (50 <= pipe_topHeight pipe)%Q /\ (pipe_topHeight pipe <= 350)%Q /\
  (250 <= pipe_bottomY pipe)%Q /\ (pipe_bottomY pipe <= 550)%Q.
Proof.
  intros H0 H1 pipe.
  assert (E : Binary64.sub
                (Binary64.sub (Binary64.sub CANVAS_HEIGHT PIPE_GAP) 50) 50
              = 300%Q) by (vm_compute; reflexivity).
  assert (Et : pipe_topHeight pipe = Binary64.add (Binary64.mul r 300) 50).
  { unfold pipe, Binary64.generatePipe. cbn [pipe_topHeight]. rewrite E.
    reflexivity. }
  assert (Em : Binary64.mul r (350 - 50) = Binary64.mul r 300).
  { apply round64_comp. ring. }
  destruct (round64_between (r * 300) 0 300) as [A1 A2];
    [lia | lia | unfold inject_Z; lra | unfold inject_Z; lra |].
  change (inject_Z 0) with 0%Q in A1. change (inject_Z 300) with 300%Q in A2.
  fold (Binary64.mul r 300) in A1, A2.
  destruct (round64_between (Binary64.mul r 300 + 50) 50 350) as [B1 B2];
    [lia | lia | unfold inject_Z; lra | unfold inject_Z; lra |].
  change (inject_Z 50) with 50%Q in B1. change (inject_Z 350) with 350%Q in B2.
  fold (Binary64.add (Binary64.mul r 300) 50) in B1, B2.
  rewrite <- Et in B1, B2.
  destruct (round64_between (pipe_topHeight pipe + 200) 250 550) as [C1 C2];
    [lia | lia | unfold inject_Z; lra | unfold inject_Z; lra |].
  change (inject_Z 250) with 250%Q in C1.
  change (inject_Z 550) with 550%Q in C2.
  split; [reflexivity|]. split; [reflexivity|].
  split; [rewrite Em; exact Et|]. split; [reflexivity|].
  repeat split; assumption.
Qed.

(** ** Pipes of a run *)

Section RandomRange.

(** [Math.random] returns a number in [[0, 1)]. *)
Hypothesis random_range : forall n, (0 <= random n)%Q /\ (random n < 1)%Q.

Lemma generatePipe_spec w :
  let pipe := fst (generatePipe w) in
  pipe_x pipe = CANVAS_WIDTH /\
  pipe_passed pipe = false /\
  pipe_bottomY pipe = (pipe_topHeight pipe + PIPE_GAP)%Q /\
  (pipe_topHeight pipe == random (randomCalls w) * (350 - 50) + 50)%Q /\
  (50 <= pipe_topHeight pipe)%Q /\ (pipe_topHeight pipe < 350)%Q.
Proof.
  cbn. destruct (random_range (randomCalls w)) as [H0 H1].
  unfold CANVAS_HEIGHT, PIPE_GAP.
  repeat split; lra.
Qed.

Lemma stepPipe_ok bx pipe : pipeOk pipe -> pipeOk (stepPipe bx pipe).
Proof.
  unfold stepPipe. destruct (scores bx pipe); intros H; exact H.
Qed.

Lemma jump_pipes w : Forall pipeOk (pipes w) -> Forall pipeOk (pipes (jump w)).
Proof.
  intros H. unfold jump. destruct (gameState w).
  - destruct w; constructor.
  - match goal with
    | |- context [addParticles ?x ?y 5 ?w0] =>
        destruct (addParticles_spec x y 5 w0) as ((_&_&_&_& E &_) & _)
    end.
    rewrite E. destruct w; exact H.
  - destruct w; constructor.
Qed.

Lemma pipesAfter_ok bx l : Forall pipeOk l -> Forall pipeOk (pipesAfter bx l).
Proof.
  intros H. apply Forall_forall. intros q Hq.
  apply elem_of_pipesAfter in Hq as (pipe & Hin & -> & _).
  rewrite Forall_forall in H. apply stepPipe_ok, H, Hin.
Qed.

Lemma gameLoop_pipes canvas ctx w w' :
  gameLoop canvas ctx w = Some w' ->
  Forall pipeOk (pipes w) -> Forall pipeOk (pipes w').
Proof.
  intros Hw H.
  destruct (canvas && ctx) eqn:Hs.
  2:{ rewrite gameLoop_no_surface in Hw by exact Hs.
      injection Hw as <-. exact H. }
  apply andb_true_iff in Hs as [-> ->].
  assert (Hidle : gameState w <> playing -> Forall pipeOk (pipes w')).
  { intros Hg. rewrite gameLoop_not_playing in Hw by exact Hg.
    injection Hw as <-. destruct w; exact H. }
  destruct (gameState w) eqn:Hg; [apply Hidle; discriminate| |apply Hidle; discriminate].
  destruct (frame_playing w Hg) as (w1 & Hw1 & _ & _ & Hp).
  rewrite Hw1 in Hw. injection Hw as <-.
  pose proof (pipesAfter_ok (bird_x (bird w)) _ H) as Ha.
  destruct Hp as [Hp|Hp]; rewrite Hp; [exact Ha|].
  apply Forall_app. split; [exact Ha|].
  constructor; [|constructor].
  destruct (generatePipe_spec (afterPipes w)) as (_ & _ & A & _ & B & C).
  repeat split; assumption.
Qed.

Lemma reachable_pipes w : reachable w -> Forall pipeOk (pipes w).
Proof.
  induction 1 as [saved|w Hr IH|canvas ctx w w' Hr IH Hw].
  - constructor.
  - apply jump_pipes, IH.
  - apply (gameLoop_pipes canvas ctx w w' Hw IH).
Qed.

(** C7, amended.  For every number [r] in [[0, 1)] that [Math.random] can
    return, the pipe made by [generatePipe], in the program's binary64
    arithmetic, has [x = CANVAS_WIDTH = 800], is not passed, has
    [bottomY = topHeight + PIPE_GAP] (200) and
    [topHeight = r * (350 - 50) + 50], each operation rounded; its
    [topHeight] lies in [[50, 350]], so [0 < topHeight], and its [bottomY]
    is at most 550: not below 550, which the rounding of the last sum can
    reach.  With [Math.random] in [[0, 1)], every pipe of every world of a
    run has [0 < topHeight] and [bottomY <= 550]. *)
Theorem generated_pipes_in_range :
  (forall r,
     (0 <= r)%Q -> (r < 1)%Q ->
     let pipe := Binary64.generatePipe r in
     pipe_x pipe = 800%Q /\
     pipe_passed pipe = false /\
     pipe_bottomY pipe = Binary64.add (pipe_topHeight pipe) 200 /\
     pipe_topHeight pipe = Binary64.add (Binary64.mul r (350 - 50)) 50 /\
     (50 <= pipe_topHeight pipe)%Q /\ (pipe_topHeight pipe <= 350)%Q /\
     (0 < pipe_topHeight pipe)%Q /\
     (pipe_bottomY pipe <= 600 - 50)%Q) /\
  (forall w,
     reachable w ->
     forall pipe, pipe ∈ pipes w ->
       (0 < pipe_topHeight pipe)%Q /\
       (pipe_bottomY pipe <= 600 - 50)%Q).
Proof.
  split.
  - intros r H0 H1 pipe.
    destruct (generatePipe_binary64 r H0 H1)
      as (A & B & C & D & E & F & _ & G).
    fold pipe in A, B, C, D, E, F, G.
    split; [exact A|]. split; [exact B|]. split; [exact D|].
    split; [exact C|]. split; [exact E|]. split; [exact F|].
    split; lra.
  - intros w Hr pipe Hin.
    pose proof (reachable_pipes w Hr) as H. rewrite Forall_forall in H.
    destruct (H pipe Hin) as (A & B & C).
    rewrite C. unfold PIPE_GAP. split; lra.
Qed.

End RandomRange.

(** ** The best score *)

(** What a frame in state [playing] does to the best score and the store:
    on a collision it compares, and records, the score the frame started
    with, [score w]; the points the frame itself earned are in [score w']
    only. *)
Lemma highScore_after_frame w :
  gameState w = playing ->
  exists w',
    gameLoop true true w = Some w' /\
    let hit := checkCollision (bird w') (pipes w') in
    gameState w' = (if hit then gameOver else playing) /\
    highScore w' =
      (if hit && score_gt (score w) (highScore w) then Num (score w)
       else highScore w) /\
    localStorage w' =
      (if hit && score_gt (score w) (highScore w)
       then Some (toString (score w)) else localStorage w).
Proof.
  intros Hg. eexists. split; [apply gameLoop_playing, Hg|].
  cbv zeta.
  set (w0 := spawnPipe (afterPipes w)).
  destruct (spawnPipe_spec (afterPipes w)) as (S1 & _ & S3 & _ & _ & S6 & _).
  fold w0 in S1, S3, S6.
  destruct (collide_keeps (score w) (highScore w) w0) as (_ & B & C).
  set (w1 := collide (score w) (highScore w) w0) in *.
  assert (E : forall l, gameState (set_particles l w1) = gameState w1 /\
                        highScore (set_particles l w1) = highScore w1 /\
                        localStorage (set_particles l w1) = localStorage w1 /\
                        bird (set_particles l w1) = bird w1 /\
                        pipes (set_particles l w1) = pipes w1)
    by (intros; destruct w1; repeat split).
  destruct (E (particlesAfter (particles w1))) as (E1 & E2 & E3 & E4 & E5).
  rewrite E1, E2, E3, E4, E5, B, C. subst w1.
  destruct (checkCollision (bird w0) (pipes w0)) eqn:Hhit.
  - destruct (collide_hit (score w) (highScore w) w0 Hhit)
      as (A1 & _ & _ & _ & A5 & A6 & _).
    rewrite A1, A5, A6, S3, S6. repeat split.
  - rewrite collide_miss by exact Hhit.
    rewrite S1, S3, S6. clearbody w0.
    split; [destruct w; exact Hg|split; destruct w; reflexivity].
Qed.

(** The best score never goes down, and [NaN] stays [NaN]. *)
Lemma highScore_monotone canvas ctx w w' :
  gameLoop canvas ctx w = Some w' ->
  match highScore w with
  | Num h => exists h', highScore w' = Num h' /\ h <= h'
  | NaN => highScore w' = NaN
  end.
Proof.
  intros Hw.
  assert (Hsame : highScore w' = highScore w ->
                  match highScore w with
                  | Num h => exists h', highScore w' = Num h' /\ h <= h'
                  | NaN => highScore w' = NaN
                  end).
  { intros ->. destruct (highScore w); [reflexivity|].
    eexists; split; [reflexivity|lia]. }
  destruct (canvas && ctx) eqn:Hs.
  2:{ rewrite gameLoop_no_surface in Hw by exact Hs.
      injection Hw as <-. apply Hsame. reflexivity. }
  apply andb_true_iff in Hs as [-> ->].
  assert (Hidle : gameState w <> playing -> highScore w' = highScore w).
  { intros Hg. rewrite gameLoop_not_playing in Hw by exact Hg.
    injection Hw as <-. destruct w; reflexivity. }
  destruct (gameState w) eqn:Hg;
    [apply Hsame, Hidle; discriminate| |apply Hsame, Hidle; discriminate].
  destruct (highScore_after_frame w Hg) as (w1 & Hw1 & _ & Hh & _).
  rewrite Hw1 in Hw. injection Hw as <-.
  destruct (checkCollision (bird w1) (pipes w1) &&
            score_gt (score w) (highScore w)) eqn:Hc.
  - apply andb_true_iff in Hc as [_ Hc]. rewrite Hh.
    destruct (highScore w) as [|h]; [discriminate|].
    cbn in Hc. apply Z.ltb_lt in Hc. eexists; split; [reflexivity|lia].
  - apply Hsame, Hh.
Qed.

Lemma jump_highScore w : highScore (jump w) = highScore w.
Proof.
  unfold jump. destruct (gameState w).
  - destruct w; reflexivity.
  - match goal with
    | |- context [addParticles ?x ?y 5 ?w0] =>
        destruct (addParticles_spec x y 5 w0) as ((_&_& E &_) & _)
    end.
    rewrite E. destruct w; reflexivity.
  - destruct w; reflexivity.
Qed.

(** ** Worlds up to the writing of fractions

    Every callback takes worlds that differ in the writing of their
    fractions only to worlds that differ in that only; so a run may be
    computed with fractions in lowest terms. *)

#[local] Instance Qlt_bool_comp : Proper (Qeq ==> Qeq ==> eq) Qlt_bool.
Proof. intros a a' Ha b b' Hb. unfold Qlt_bool. rewrite Ha, Hb. reflexivity. Qed.

Lemma Bird_eq_refl b : Bird_eq b b.
Proof. repeat split; reflexivity. Qed.

Lemma Pipe_eq_refl pipe : Pipe_eq pipe pipe.
Proof. repeat split; reflexivity. Qed.

Lemma Particle_eq_refl p : Particle_eq p p.
Proof. repeat split; reflexivity. Qed.

Lemma Bird_eq_trans a b c : Bird_eq a b -> Bird_eq b c -> Bird_eq a c.
Proof.
  intros (A1 & A2 & A3 & A4) (B1 & B2 & B3 & B4).
  repeat split; etransitivity; eassumption.
Qed.

Lemma Pipe_eq_trans a b c : Pipe_eq a b -> Pipe_eq b c -> Pipe_eq a c.
Proof.
  intros (A1 & A2 & A3 & A4) (B1 & B2 & B3 & B4).
  repeat split; etransitivity; eassumption.
Qed.

Lemma Particle_eq_trans a b c :
  Particle_eq a b -> Particle_eq b c -> Particle_eq a c.
Proof.
  intros (A1 & A2 & A3 & A4 & A5 & A6) (B1 & B2 & B3 & B4 & B5 & B6).
  repeat split; etransitivity; eassumption.
Qed.

Lemma Forall2_refl_all {A} (R : A -> A -> Prop) (l : list A) :
  (forall a, R a a) -> Forall2 R l l.
Proof. intros HR. induction l; constructor; auto. Qed.

Lemma Forall2_trans_all {A} (R : A -> A -> Prop) :
  (forall a b c, R a b -> R b c -> R a c) ->
  forall l1 l2 l3, Forall2 R l1 l2 -> Forall2 R l2 l3 -> Forall2 R l1 l3.
Proof.
  intros HR l1 l2 l3 H12. revert l3.
  induction H12 as [|a b l1 l2 Hab _ IH]; intros l3 H23;
    inversion H23; subst; constructor; eauto.
Qed.

Lemma World_eq_refl w : World_eq w w.
Proof.
  repeat split; try reflexivity.
  - apply Forall2_refl_all, Pipe_eq_refl.
  - apply Forall2_refl_all, Particle_eq_refl.
Qed.

Lemma World_eq_trans a b c : World_eq a b -> World_eq b c -> World_eq a c.
Proof.
  intros (A1 & A2 & A3 & A4 & A5 & A6 & A7 & A8)
         (B1 & B2 & B3 & B4 & B5 & B6 & B7 & B8).
  split; [congruence|]. split; [congruence|]. split; [congruence|].
  split; [eapply Bird_eq_trans; eassumption|].
  split; [eapply (Forall2_trans_all _ Pipe_eq_trans); eassumption|].
  split; [eapply (Forall2_trans_all _ Particle_eq_trans); eassumption|].
  split; congruence.
Qed.

Lemma canon_eq w : World_eq w (canon w).
Proof.
  repeat split; cbn; try (symmetry; apply Qred_correct).
  - induction (pipes w); constructor; [|assumption].
    repeat split; cbn; symmetry; apply Qred_correct.
  - induction (particles w); constructor; [|assumption].
    repeat split; cbn; symmetry; apply Qred_correct.
Qed.

Lemma updateBird_eq a b : Bird_eq a b -> Bird_eq (updateBird a) (updateBird b).
Proof.
  intros (H1 & H2 & H3 & H4). unfold updateBird.
  repeat split; cbn [bird_x bird_y bird_velocity bird_rotation].
  - exact H1.
  - rewrite H2, H3. reflexivity.
  - rewrite H3. reflexivity.
  - rewrite H3. reflexivity.
Qed.

Lemma hitsPipe_eq a b p q :
  Bird_eq a b -> Pipe_eq p q -> hitsPipe a p = hitsPipe b q.
Proof.
  intros (H1 & H2 & H3 & H4) (P1 & P2 & P3 & P4).
  unfold hitsPipe, Qgt_bool. rewrite !H1, !H2, !P1, !P2, !P3. reflexivity.
Qed.

Lemma checkPipes_eq a b l1 l2 :
  Bird_eq a b -> Forall2 Pipe_eq l1 l2 -> checkPipes a l1 = checkPipes b l2.
Proof.
  intros Hb Hl. induction Hl as [|p q l1 l2 Hpq _ IH]; cbn [checkPipes].
  - reflexivity.
  - rewrite (hitsPipe_eq a b p q Hb Hpq), IH. reflexivity.
Qed.

Lemma checkCollision_eq a b l1 l2 :
  Bird_eq a b -> Forall2 Pipe_eq l1 l2 ->
  checkCollision a l1 = checkCollision b l2.
Proof.
  intros Hb Hl. unfold checkCollision, Qge_bool.
  rewrite (checkPipes_eq a b l1 l2 Hb Hl).
  destruct Hb as (H1 & H2 & H3 & H4). rewrite !H2. reflexivity.
Qed.

Lemma scores_eq bx by' p q :
  (bx == by')%Q -> Pipe_eq p q -> scores bx p = scores by' q.
Proof.
  intros Hb (P1 & P2 & P3 & P4). unfold scores. rewrite Hb, P1, P4.
  reflexivity.
Qed.

Lemma stepPipe_eq bx by' p q :
  (bx == by')%Q -> Pipe_eq p q -> Pipe_eq (stepPipe bx p) (stepPipe by' q).
Proof.
  intros Hb Hp. unfold stepPipe. rewrite (scores_eq bx by' p q Hb Hp).
  destruct Hp as (P1 & P2 & P3 & P4).
  destruct (scores by' q); repeat split; cbn; try assumption;
    rewrite P1; reflexivity.
Qed.

Lemma offScreen_eq p q : Pipe_eq p q -> offScreen p = offScreen q.
Proof. intros (P1 & _). unfold offScreen. rewrite P1. reflexivity. Qed.

Lemma pipesAfter_eq bx by' l1 l2 :
  (bx == by')%Q -> Forall2 Pipe_eq l1 l2 ->
  Forall2 Pipe_eq (pipesAfter bx l1) (pipesAfter by' l2).
Proof.
  intros Hb Hl. unfold pipesAfter.
  induction Hl as [|p q l1 l2 Hpq _ IH]; cbn [List.map List.filter].
  - constructor.
  - pose proof (stepPipe_eq bx by' p q Hb Hpq) as Hs.
    rewrite (offScreen_eq _ _ Hs).
    destruct (offScreen (stepPipe by' q)); cbn [negb];
      [exact IH|constructor; assumption].
Qed.

Lemma gained_eq bx by' l1 l2 :
  (bx == by')%Q -> Forall2 Pipe_eq l1 l2 -> gained bx l1 = gained by' l2.
Proof.
  intros Hb Hl. unfold gained. f_equal.
  induction Hl as [|p q l1 l2 Hpq _ IH]; cbn [List.filter]; [reflexivity|].
  rewrite (scores_eq bx by' p q Hb Hpq).
  destruct (scores by' q); cbn [length]; congruence.
Qed.

Lemma particlesAfter_eq l1 l2 :
  Forall2 Particle_eq l1 l2 ->
  Forall2 Particle_eq (particlesAfter l1) (particlesAfter l2).
Proof.
  intros Hl. unfold particlesAfter.
  induction Hl as [|p q l1 l2 Hpq _ IH]; cbn [List.map List.filter].
  - constructor.
  - destruct Hpq as (P1 & P2 & P3 & P4 & P5 & P6).
    cbn [advanceParticle particle_life]. rewrite P5.
    destruct (particle_life q - 1 <=? 0); cbn [negb]; [exact IH|].
    constructor; [|exact IH].
    unfold Particle_eq.
    cbn [advanceParticle particle_x particle_y particle_velocity_x
         particle_velocity_y particle_life particle_maxLife].
    rewrite P1, P2, P3, P4, P5, P6. repeat split; reflexivity.
Qed.

(** Reduces projections and setters of worlds, and nothing else. *)
Ltac fields :=
  cbn [gameState score highScore bird pipes particles localStorage
       randomCalls setGameState setScore setHighScore set_bird set_pipes
       set_particles localStorage_setItem set_randomCalls] in *.

Ltac split_worlds a b H :=
  destruct a, b; unfold World_eq in H; fields;
  destruct H as (-> & -> & -> & ?Hb & ?Hp & ?Hq & -> & ->).

Lemma World_eq_intro g s h b1 b2 p1 p2 q1 q2 ls rc :
  Bird_eq b1 b2 -> Forall2 Pipe_eq p1 p2 -> Forall2 Particle_eq q1 q2 ->
  World_eq (mkWorld g s h b1 p1 q1 ls rc) (mkWorld g s h b2 p2 q2 ls rc).
Proof. intros Hb Hp Hq. unfold World_eq. fields. tauto. Qed.

Lemma afterPipes_eq a b : World_eq a b -> World_eq (afterPipes a) (afterPipes b).
Proof.
  intros H. split_worlds a b H. unfold afterPipes. fields.
  assert (Hx : (bird_x bird0 == bird_x bird1)%Q) by apply Hb.
  rewrite (gained_eq _ _ _ _ Hx Hp).
  apply World_eq_intro; [apply updateBird_eq|apply pipesAfter_eq|];
    assumption.
Qed.

Lemma spawn_test_eq l1 l2 :
  Forall2 Pipe_eq l1 l2 ->
  match last l1 with
  | None => true
  | Some pipe => Qlt_bool (pipe_x pipe) (CANVAS_WIDTH - 300)
  end =
  match last l2 with
  | None => true
  | Some pipe => Qlt_bool (pipe_x pipe) (CANVAS_WIDTH - 300)
  end.
Proof.
  induction 1 as [|p q l1 l2 Hpq Hl IH]; [reflexivity|].
  destruct Hl as [|p' q' l1 l2 Hpq' Hl].
  - cbn. destruct Hpq as (P1 & _). rewrite P1. reflexivity.
  - exact IH.
Qed.

Lemma spawnPipe_eq a b : World_eq a b -> World_eq (spawnPipe a) (spawnPipe b).
Proof.
  intros H. unfold spawnPipe.
  assert (Hl : Forall2 Pipe_eq (pipes a) (pipes b)) by apply H.
  rewrite (spawn_test_eq _ _ Hl).
  destruct (match last (pipes b) with
            | None => true
            | Some pipe => Qlt_bool (pipe_x pipe) (CANVAS_WIDTH - 300)
            end); [|exact H].
  split_worlds a b H. unfold generatePipe, Math_random. fields.
  apply World_eq_intro; try assumption.
  apply Forall2_app; [assumption|]. constructor; [|constructor].
  apply Pipe_eq_refl.
Qed.

Lemma pushParticle_eq x1 y1 x2 y2 a b :
  (x1 == x2)%Q -> (y1 == y2)%Q -> World_eq a b ->
  World_eq (pushParticle x1 y1 a) (pushParticle x2 y2 b).
Proof.
  intros Hx Hy H. split_worlds a b H.
  unfold pushParticle, Math_random. fields.
  apply World_eq_intro; try assumption.
  apply Forall2_app; [assumption|]. constructor; [|constructor].
  unfold Particle_eq.
  cbn [particle_x particle_y particle_velocity_x particle_velocity_y
       particle_life particle_maxLife].
  split; [exact Hx|]. split; [exact Hy|]. repeat split; reflexivity.
Qed.

Lemma addParticles_eq count :
  forall x1 y1 x2 y2 a b,
    (x1 == x2)%Q -> (y1 == y2)%Q -> World_eq a b ->
    World_eq (addParticles x1 y1 count a) (addParticles x2 y2 count b).
Proof.
  induction count as [|n IH]; intros x1 y1 x2 y2 a b Hx Hy H;
    cbn [addParticles]; [exact H|].
  apply IH; try assumption. apply pushParticle_eq; assumption.
Qed.

Lemma collide_eq s h a b :
  World_eq a b -> World_eq (collide s h a) (collide s h b).
Proof.
  intros H. unfold collide.
  rewrite (checkCollision_eq (bird a) (bird b) (pipes a) (pipes b));
    [|apply H|apply H].
  destruct (checkCollision (bird b) (pipes b)); [|exact H].
  set (a1 := setGameState gameOver a). set (b1 := setGameState gameOver b).
  assert (H1 : World_eq a1 b1).
  { subst a1 b1. split_worlds a b H. fields.
    apply World_eq_intro; assumption. }
  assert (H2 : World_eq (addParticles (bird_x (bird a1)) (bird_y (bird a1)) 15 a1)
                        (addParticles (bird_x (bird b1)) (bird_y (bird b1)) 15 b1)).
  { apply addParticles_eq; [apply H1|apply H1|exact H1]. }
  destruct (score_gt s h); [|exact H2].
  revert H2. generalize (addParticles (bird_x (bird a1)) (bird_y (bird a1)) 15 a1).
  generalize (addParticles (bird_x (bird b1)) (bird_y (bird b1)) 15 b1).
  intros b2 a2 H2. split_worlds a2 b2 H2. fields.
  apply World_eq_intro; assumption.
Qed.

Lemma set_particles_eq l1 l2 a b :
  Forall2 Particle_eq l1 l2 -> World_eq a b ->
  World_eq (set_particles l1 a) (set_particles l2 b).
Proof.
  intros Hl H. split_worlds a b H. fields.
  apply World_eq_intro; assumption.
Qed.

(** A frame never throws. *)
Lemma gameLoop_total canvas ctx w : exists w', gameLoop canvas ctx w = Some w'.
Proof.
  destruct (canvas && ctx) eqn:Hs.
  2:{ exists w. apply gameLoop_no_surface, Hs. }
  apply andb_true_iff in Hs as [-> ->].
  destruct (gameState w) eqn:Hg.
  - eexists. apply gameLoop_not_playing. rewrite Hg. discriminate.
  - eexists. apply gameLoop_playing, Hg.
  - eexists. apply gameLoop_not_playing. rewrite Hg. discriminate.
Qed.

Lemma gameLoop_eq a b a' b' :
  World_eq a b ->
  gameLoop true true a = Some a' -> gameLoop true true b = Some b' ->
  World_eq a' b'.
Proof.
  intros H Ha Hb'.
  assert (Hg : gameState a = gameState b) by apply H.
  assert (Hs : score a = score b) by apply H.
  assert (Hh : highScore a = highScore b) by apply H.
  assert (Hidle : gameState b <> playing -> World_eq a' b').
  { intros Hn. rewrite gameLoop_not_playing in Ha by congruence.
    rewrite gameLoop_not_playing in Hb' by exact Hn.
    injection Ha as <-. injection Hb' as <-.
    apply set_particles_eq; [apply particlesAfter_eq, H|exact H]. }
  destruct (gameState b) eqn:Hgb; [apply Hidle; discriminate| |apply Hidle; discriminate].
  rewrite gameLoop_playing in Ha by exact Hg.
  rewrite gameLoop_playing in Hb' by exact Hgb.
  injection Ha as <-. injection Hb' as <-. cbv zeta. rewrite Hs, Hh.
  assert (Hc : World_eq (collide (score b) (highScore b) (spawnPipe (afterPipes a)))
                        (collide (score b) (highScore b) (spawnPipe (afterPipes b))))
    by (apply collide_eq, spawnPipe_eq, afterPipes_eq, H).
  apply set_particles_eq; [apply particlesAfter_eq, Hc|exact Hc].
Qed.

Lemma jump_eq a b : World_eq a b -> World_eq (jump a) (jump b).
Proof.
  intros H. unfold jump.
  assert (Hg : gameState a = gameState b) by apply H. rewrite Hg.
  assert (Hreset : World_eq (resetGame (setGameState playing a))
                            (resetGame (setGameState playing b))).
  { split_worlds a b H. unfold resetGame. fields.
    apply World_eq_intro; [apply Bird_eq_refl|constructor|constructor]. }
  destruct (gameState b); [exact Hreset| |exact Hreset].
  assert (Hb : Bird_eq (bird a) (bird b)) by apply H.
  destruct Hb as (B1 & B2 & B3 & B4).
  apply addParticles_eq.
  - destruct a, b; fields. cbn [bird_x]. rewrite B1. reflexivity.
  - destruct a, b; fields. cbn [bird_y]. rewrite B2. reflexivity.
  - split_worlds a b H. fields.
    apply World_eq_intro; try assumption.
    split; [exact B1|]. split; [exact B2|]. split; [reflexivity|exact B4].
Qed.

(** A run with fractions in lowest terms follows the run itself. *)
Lemma frames_framesC n :
  forall a b b',
    World_eq a b -> framesC n b = Some b' ->
    exists a', frames n a = Some a' /\ World_eq a' b'.
Proof.
  induction n as [|n IH]; intros a b b' H Hb'; cbn [frames framesC] in *.
  - injection Hb' as <-. exists a. split; [reflexivity|exact H].
  - destruct (gameLoop true true b) as [b1|] eqn:Eb; [|discriminate].
    destruct (gameLoop_total true true a) as (a1 & Ea).
    rewrite Ea. cbn [mbind option_bind] in *.
    apply (IH a1 (canon b1) b'); [|exact Hb'].
    eapply World_eq_trans; [exact (gameLoop_eq a b a1 b1 H Ea Eb)|].
    apply canon_eq.
Qed.

Lemma play_playC script :
  forall a b b',
    World_eq a b -> playC script b = Some b' ->
    exists a', play script a = Some a' /\ World_eq a' b'.
Proof.
  induction script as [|n rest IH]; intros a b b' H Hb';
    cbn [play playC] in *.
  - injection Hb' as <-. exists a. split; [reflexivity|exact H].
  - destruct (framesC n b) as [b1|] eqn:Eb; [|discriminate].
    destruct (frames_framesC n a b b1 H Eb) as (a1 & Ea & H1).
    rewrite Ea. cbn [mbind option_bind] in *.
    apply (IH (jump a1) (canon (jump b1)) b'); [|exact Hb'].
    eapply World_eq_trans; [apply jump_eq, H1|apply canon_eq].
Qed.

Lemma session_sessionC script n b' :
  sessionC script n = Some b' ->
  exists a', session script n = Some a' /\ reachable a' /\ World_eq a' b'.
Proof.
  unfold session, sessionC. intros Hb'.
  destruct (playC script (canon (jump (initialWorld None)))) as [b1|] eqn:Eb;
    [|discriminate].
  cbn [mbind option_bind] in Hb'.
  destruct (play_playC script (jump (initialWorld None)) _ b1
              (canon_eq _) Eb) as (a1 & Ea & H1).
  destruct (frames_framesC n a1 b1 b' H1 Hb') as (a' & Ea' & H').
  exists a'. rewrite Ea. cbn [mbind option_bind].
  split; [exact Ea'|]. split; [|exact H'].
  apply (session_reachable script n). unfold session. rewrite Ea. exact Ea'.
Qed.

(** * More properties of the game loop *)

(** ** The flight of the bird *)

Lemma Qn_S n : (Qn (S n) == Qn n + 1)%Q.
Proof.
  unfold Qn. rewrite Nat2Z.inj_succ. unfold Z.succ.
  rewrite inject_Z_plus. reflexivity.
Qed.

Lemma Qn_nonneg n : (0 <= Qn n)%Q.
Proof.
  unfold Qn. change 0%Q with (inject_Z 0). rewrite <- Zle_Qle. lia.
Qed.

Lemma clamp_range v :
  (-30 <= Qmin (Qmax v (-30)) 90)%Q /\ (Qmin (Qmax v (-30)) 90 <= 90)%Q.
Proof.
  split.
  - apply Q.min_glb; [apply Q.le_max_r|lra].
  - apply Q.le_min_r.
Qed.

Lemma clamp_cases v :
  ((v <= -30)%Q -> (Qmin (Qmax v (-30)) 90 == -30)%Q) /\
  ((-30 <= v)%Q -> (v <= 90)%Q -> (Qmin (Qmax v (-30)) 90 == v)%Q) /\
  ((90 <= v)%Q -> (Qmin (Qmax v (-30)) 90 == 90)%Q).
Proof.
  repeat split.
  - intros H. rewrite (Q.max_r v (-30)) by exact H. apply Q.min_l. lra.
  - intros H1 H2. rewrite (Q.max_l v (-30)) by exact H1. apply Q.min_l, H2.
  - intros H. rewrite (Q.max_l v (-30)) by lra. apply Q.min_r, H.
Qed.

(** X1.  A frame in state [playing] adds the gravity 0.6 to the bird's
    velocity, then adds the new velocity to [y], leaves [x] alone, and sets
    the rotation to three times the new velocity clamped to [[-30, 90]]:
    it is [-30] at or below that, [90] at or above, and [3 v] in
    between. *)
Theorem bird_step (w : World) :
  gameState w = playing ->
  exists w',
    gameLoop true true w = Some w' /\
    bird_x (bird w') = bird_x (bird w) /\
    bird_velocity (bird w') = (bird_velocity (bird w) + (6 # 10))%Q /\
    bird_y (bird w') = (bird_y (bird w) + bird_velocity (bird w'))%Q /\
    (-30 <= bird_rotation (bird w'))%Q /\
    (bird_rotation (bird w') <= 90)%Q /\
    ((bird_velocity (bird w') * 3 <= -30)%Q ->
     (bird_rotation (bird w') == -30)%Q) /\
    ((-30 <= bird_velocity (bird w') * 3)%Q ->
     (bird_velocity (bird w') * 3 <= 90)%Q ->
     (bird_rotation (bird w') == bird_velocity (bird w') * 3)%Q) /\
    ((90 <= bird_velocity (bird w') * 3)%Q ->
     (bird_rotation (bird w') == 90)%Q).
Proof.
  intros Hg. destruct (frame_playing w Hg) as (w' & Hw & _ & Hb & _).
  exists w'. split; [exact Hw|]. rewrite Hb. unfold updateBird.
  cbn [bird_x bird_y bird_velocity bird_rotation].
  split; [reflexivity|]. split; [reflexivity|]. split; [reflexivity|].
  split; [apply clamp_range|]. split; [apply clamp_range|].
  apply clamp_cases.
Qed.

Lemma iter_updateBird n b :
  bird_x (Nat.iter n updateBird b) = bird_x b /\
  (bird_velocity (Nat.iter n updateBird b)
   == bird_velocity b + (6 # 10) * Qn n)%Q /\
  (bird_y (Nat.iter n updateBird b)
   == bird_y b + Qn n * bird_velocity b + (3 # 10) * Qn n * (Qn n + 1))%Q.
Proof.
  induction n as [|n IH].
  - cbn [Nat.iter nat_rect]. change (Qn 0) with 0%Q.
    split; [reflexivity|split; ring].
  - rewrite Nat.iter_succ.
    destruct IH as (Hx & Hv & Hy).
    set (b1 := Nat.iter n updateBird b) in *.
    assert (E1 : bird_x (updateBird b1) = bird_x b1) by reflexivity.
    assert (E2 : bird_velocity (updateBird b1)
                 = (bird_velocity b1 + (6 # 10))%Q) by reflexivity.
    assert (E3 : bird_y (updateBird b1)
                 = (bird_y b1 + (bird_velocity b1 + (6 # 10)))%Q)
      by reflexivity.
    rewrite E1, E2, E3. split; [exact Hx|].
    rewrite Hv, Hy, Qn_S. split; ring.
Qed.

(** A frame leaves every state but [playing], and leaves [playing] for
    [gameOver] only. *)
Lemma gameLoop_gameState canvas ctx w w' :
  gameLoop canvas ctx w = Some w' ->
  gameState w' = gameState w \/
  (gameState w = playing /\ gameState w' = gameOver).
Proof.
  intros Hw. destruct (canvas && ctx) eqn:Hs.
  2:{ rewrite gameLoop_no_surface in Hw by exact Hs.
      injection Hw as <-. left. reflexivity. }
  apply andb_true_iff in Hs as [-> ->].
  assert (Hidle : gameState w <> playing -> gameState w' = gameState w).
  { intros Hg. rewrite gameLoop_not_playing in Hw by exact Hg.
    injection Hw as <-. destruct w; reflexivity. }
  destruct (gameState w) eqn:Hg;
    [left; apply Hidle; discriminate| |left; apply Hidle; discriminate].
  destruct (highScore_after_frame w Hg) as (w1 & Hw1 & Hs & _).
  rewrite Hw1 in Hw. injection Hw as <-. cbv zeta in Hs. rewrite Hs.
  destruct (checkCollision (bird w1) (pipes w1)); auto.
Qed.

(** Frames that end in flight were all in flight, without a collision. *)
Lemma frames_in_flight n :
  forall w w',
    frames n w = Some w' -> gameState w' = playing ->
    gameState w = playing /\
    bird w' = Nat.iter n updateBird (bird w) /\
    (n <> 0%nat -> checkCollision (bird w') (pipes w') = false).
Proof.
  induction n as [|n IH]; intros w w' Hw Hg; cbn [frames] in Hw.
  - injection Hw as <-. repeat split; [exact Hg|congruence].
  - destruct (gameLoop true true w) as [w1|] eqn:E; [|discriminate].
    cbn [mbind option_bind] in Hw.
    destruct (IH w1 w' Hw Hg) as (Hg1 & Hb & Hc).
    assert (Hg0 : gameState w = playing).
    { destruct (gameLoop_gameState _ _ _ _ E) as [H|[H _]]; congruence. }
    destruct (frame_playing w Hg0) as (w2 & Hw2 & _ & Hb2 & _).
    destruct (highScore_after_frame w Hg0) as (w3 & Hw3 & Hs3 & _).
    rewrite E in Hw2, Hw3. injection Hw2 as <-. injection Hw3 as <-.
    split; [exact Hg0|]. split.
    + rewrite Hb, Hb2. symmetry. apply Nat.iter_succ_r.
    + intros _. destruct n as [|n].
      * cbn [frames] in Hw. injection Hw as <-. cbv zeta in Hs3.
        destruct (checkCollision (bird w1) (pipes w1)); congruence.
      * apply Hc. discriminate.
Qed.

(** ** The bird of a run *)

Lemma checkCollision_false_bounds b l :
  checkCollision b l = false ->
  (15 < bird_y b)%Q /\ (bird_y b < 535)%Q.
Proof.
  unfold checkCollision, CANVAS_HEIGHT. half_size.
  destruct (Qge_bool _ _) eqn:E1; [discriminate|].
  destruct (Qle_bool _ _) eqn:E2; [discriminate|]. intros _.
  apply not_true_iff_false in E1, E2.
  rewrite Qge_bool_iff in E1. rewrite Qle_bool_iff in E2.
  split.
  - apply Qnot_le_lt. intros H. apply E2. lra.
  - apply Qnot_le_lt. intros H. apply E1. lra.
Qed.

Lemma jump_fields w :
  highScore (jump w) = highScore w /\
  localStorage (jump w) = localStorage w /\
  match gameState w with
  | playing =>
      gameState (jump w) = playing /\ score (jump w) = score w /\
      pipes (jump w) = pipes w /\
      bird (jump w) = mkBird (bird_x (bird w)) (bird_y (bird w)) JUMP_FORCE
                             (bird_rotation (bird w))
  | _ =>
      gameState (jump w) = playing /\ score (jump w) = 0 /\
      pipes (jump w) = [] /\
      bird (jump w) = mkBird 150%Q (CANVAS_HEIGHT / 2)%Q 0%Q 0%Q
  end.
Proof.
  unfold jump. destruct (gameState w) eqn:Hg.
  - destruct w; cbn in *. repeat split.
  - match goal with
    | |- context [addParticles ?x ?y 5 ?w0] =>
        destruct (addParticles_spec x y 5 w0)
          as ((E1 & E2 & E3 & E4 & E5 & E6) & _)
    end.
    rewrite E1, E2, E3, E4, E5, E6. destruct w; cbn in *. subst.
    repeat split.
  - destruct w; cbn in *. repeat split.
Qed.

Lemma reachable_bird w : reachable w -> birdInv w.
Proof.
  induction 1 as [saved|w Hr IH|canvas ctx w w' Hr IH Hw].
  - unfold birdInv. cbn. repeat split; try lra; try discriminate.
  - destruct IH as (Ix & Ir1 & Ir2 & Ip).
    destruct (jump_fields w) as (_ & _ & Hj). unfold birdInv.
    destruct (gameState w) eqn:Hg; destruct Hj as (Hs & _ & _ & Hb);
      rewrite Hb; cbn [bird_x bird_y bird_velocity bird_rotation].
    + repeat split; try lra; unfold CANVAS_HEIGHT; reflexivity || lra.
    + destruct (Ip eq_refl) as (Y1 & Y2 & V).
      unfold JUMP_FORCE. repeat split; try assumption; lra.
    + repeat split; try lra; unfold CANVAS_HEIGHT; reflexivity || lra.
  - destruct (canvas && ctx) eqn:Hs.
    2:{ rewrite gameLoop_no_surface in Hw by exact Hs.
        injection Hw as <-. exact IH. }
    apply andb_true_iff in Hs as [-> ->].
    destruct IH as (Ix & Ir1 & Ir2 & Ip).
    assert (Hidle : gameState w <> playing -> birdInv w').
    { intros Hg. rewrite gameLoop_not_playing in Hw by exact Hg.
      injection Hw as <-. unfold birdInv. destruct w; cbn in *.
      repeat split; try assumption; intros; congruence. }
    destruct (gameState w) eqn:Hg;
      [apply Hidle; discriminate| |apply Hidle; discriminate].
    destruct (frame_playing w Hg) as (w1 & Hw1 & _ & Hb & _).
    destruct (highScore_after_frame w Hg) as (w2 & Hw2 & Hs2 & _).
    rewrite Hw in Hw1, Hw2. injection Hw1 as <-. injection Hw2 as <-.
    cbv zeta in Hs2. destruct (Ip eq_refl) as (Y1 & Y2 & V).
    unfold birdInv. split; [rewrite Hb; exact Ix|].
    split; [rewrite Hb; apply clamp_range|].
    split; [rewrite Hb; apply clamp_range|].
    intros Hp. rewrite Hp in Hs2.
    destruct (checkCollision (bird w') (pipes w')) eqn:Hc; [discriminate|].
    destruct (checkCollision_false_bounds _ _ Hc) as (B1 & B2).
    split; [exact B1|]. split; [exact B2|].
    rewrite Hb. unfold updateBird, GRAVITY. cbn [bird_velocity]. lra.
Qed.

(** X3.  In every world of a run the bird stands at [x = 150] and its
    rotation lies in [[-30, 90]]; and while the state is [playing] the
    bird is clear of the ceiling and of the ground line ([15 < y < 535])
    and its velocity is never below the flap's [-12]. *)
Theorem bird_in_bounds (w : World) :
  reachable w ->
  (bird_x (bird w) == 150)%Q /\
  (-30 <= bird_rotation (bird w))%Q /\ (bird_rotation (bird w) <= 90)%Q /\
  (gameState w = playing ->
   (0 < bird_y (bird w) - BIRD_SIZE / 2)%Q /\
   (bird_y (bird w) + BIRD_SIZE / 2 < CANVAS_HEIGHT - 50)%Q /\
   (JUMP_FORCE <= bird_velocity (bird w))%Q).
Proof.
  intros Hr. destruct (reachable_bird w Hr) as (Ix & Ir1 & Ir2 & Ip).
  split; [exact Ix|]. split; [exact Ir1|]. split; [exact Ir2|].
  intros Hg. destruct (Ip Hg) as (Y1 & Y2 & V).
  unfold CANVAS_HEIGHT, JUMP_FORCE. half_size. repeat split; lra.
Qed.

(** ** The score and the store *)

Lemma gained_nonneg bx l : 0 <= gained bx l.
Proof. unfold gained. lia. Qed.

Lemma reachable_score w : reachable w -> scoreInv w.
Proof.
  induction 1 as [saved|w Hr IH|canvas ctx w w' Hr IH Hw].
  - split; [cbn; lia|reflexivity].
  - destruct IH as (Is & Ih). destruct (jump_fields w) as (Hh & Hl & Hj).
    unfold scoreInv. rewrite Hh, Hl. split; [|exact Ih].
    destruct (gameState w); destruct Hj as (_ & Hs & _); rewrite Hs; lia.
  - destruct (canvas && ctx) eqn:Hs.
    2:{ rewrite gameLoop_no_surface in Hw by exact Hs.
        injection Hw as <-. exact IH. }
    apply andb_true_iff in Hs as [-> ->].
    destruct IH as (Is & Ih).
    assert (Hidle : gameState w <> playing -> scoreInv w').
    { intros Hg. rewrite gameLoop_not_playing in Hw by exact Hg.
      injection Hw as <-. unfold scoreInv. destruct w; cbn in *. auto. }
    destruct (gameState w) eqn:Hg;
      [apply Hidle; discriminate| |apply Hidle; discriminate].
    destruct (frame_playing w Hg) as (w1 & Hw1 & Hsc & _).
    destruct (highScore_after_frame w Hg) as (w2 & Hw2 & _ & Hh & Hl).
    rewrite Hw in Hw1, Hw2. injection Hw1 as <-. injection Hw2 as <-.
    cbv zeta in Hh, Hl. unfold scoreInv. rewrite Hsc, Hh, Hl.
    split; [pose proof (gained_nonneg (bird_x (bird w)) (pipes w)); lia|].
    destruct (checkCollision (bird w') (pipes w') &&
              score_gt (score w) (highScore w)); [|exact Ih].
    symmetry. apply initHighScore_toString, Is.
Qed.

(** X4.  In every world of a run the score is at least 0, and the best
    score in the component's state is exactly what the initialiser would
    read back from the store as it is now: a reload changes nothing. *)
Theorem score_and_store (w : World) :
  reachable w ->
  0 <= score w /\ initHighScore (localStorage w) = highScore w.
Proof.
  intros Hr. destruct (reachable_score w Hr) as (Hs & Hh).
  split; [exact Hs|symmetry; exact Hh].
Qed.

(** ** The pipes of a run: spacing *)

Lemma spaced_tail p l : spaced (p :: l) -> spaced l.
Proof. destruct l as [|q l]; [constructor|]. intros [_ H]. exact H. Qed.

Lemma spaced_map_stepPipe bx l :
  spaced l -> spaced (List.map (stepPipe bx) l).
Proof.
  induction l as [|p l IH]; [constructor|]. intros H.
  pose proof (IH (spaced_tail _ _ H)) as IH'.
  destruct l as [|q l]; [constructor|]. destruct H as [Hx _].
  cbn [List.map spaced] in *. split; [|exact IH'].
  rewrite !pipe_x_stepPipe, Hx. unfold PIPE_SPEED. ring.
Qed.

Lemma filter_onScreen_all l :
  spaced l ->
  match l with
  | p :: _ => offScreen p = false
  | [] => True
  end ->
  List.filter (fun pipe => negb (offScreen pipe)) l = l.
Proof.
  induction l as [|p l IH]; [reflexivity|]. intros Hs Hp.
  cbn [List.filter]. rewrite Hp. cbn [negb]. f_equal.
  apply IH; [exact (spaced_tail _ _ Hs)|].
  destruct l as [|q l]; [constructor|]. destruct Hs as [Hx _].
  apply offScreen_false. apply offScreen_false in Hp. rewrite Hx. lra.
Qed.

Lemma spaced_filter_onScreen l :
  spaced l -> spaced (List.filter (fun pipe => negb (offScreen pipe)) l).
Proof.
  induction l as [|p l IH]; [constructor|]. intros Hs.
  destruct (offScreen p) eqn:Hp.
  - cbn [List.filter]. rewrite Hp. cbn [negb].
    apply IH, (spaced_tail _ _ Hs).
  - rewrite filter_onScreen_all; [exact Hs|exact Hs|exact Hp].
Qed.

Lemma last_filter {A} (f : A -> bool) l q :
  last l = Some q -> f q = true -> last (List.filter f l) = Some q.
Proof.
  induction l as [|p l IH]; [discriminate|]. intros Hl Hq.
  rewrite last_cons in Hl. cbn [List.filter].
  destruct (last l) as [q'|] eqn:El.
  - injection Hl as ->. specialize (IH eq_refl Hq).
    destruct (f p); [|exact IH]. rewrite last_cons, IH. reflexivity.
  - injection Hl as ->. rewrite Hq.
    destruct l as [|p' l]; [reflexivity|].
    rewrite last_cons in El. destruct (last l); discriminate.
Qed.

Lemma last_map {A B} (f : A -> B) l :
  last (List.map f l) = option_map f (last l).
Proof.
  induction l as [|p l IH]; [reflexivity|].
  cbn [List.map]. rewrite !last_cons, IH.
  destruct (last l); reflexivity.
Qed.

Lemma spaced_snoc l new :
  spaced l ->
  match last l with
  | Some q => (pipe_x new == pipe_x q + 303)%Q
  | None => True
  end ->
  spaced (l ++ [new]).
Proof.
  induction l as [|p l IH]; [constructor|]. intros Hs Hl.
  destruct l as [|q l]; [cbn in *; auto|].
  destruct Hs as [Hx Hs].
  change (last (p :: q :: l)) with (last (q :: l)) in Hl.
  change ((p :: q :: l) ++ [new]) with (p :: q :: (l ++ [new])).
  cbn [spaced]. split; [exact Hx|].
  change (q :: l ++ [new]) with ((q :: l) ++ [new]).
  apply IH; [exact Hs|exact Hl].
Qed.

Lemma spaced_last_x l :
  forall p q,
    spaced (p :: l) -> last (p :: l) = Some q ->
    (pipe_x q == pipe_x p + 303 * Qn (length l))%Q.
Proof.
  induction l as [|p' l IH]; intros p q Hs Hl.
  - cbn in Hl. injection Hl as ->. cbn [length]. change (Qn 0) with 0%Q.
    ring.
  - destruct Hs as [Hx Hs]. rewrite last_cons in Hl.
    assert (Hl' : last (p' :: l) = Some q).
    { destruct (last (p' :: l)) eqn:E; [exact Hl|].
      rewrite last_cons in E. destruct (last l); discriminate. }
    rewrite (IH p' q Hs Hl'), Hx. cbn [length]. rewrite Qn_S. ring.
Qed.

Lemma spawnPipe_pipes w :
  pipes (spawnPipe w) =
  if match last (pipes w) with
     | None => true
     | Some pipe => Qlt_bool (pipe_x pipe) (CANVAS_WIDTH - 300)
     end
  then pipes w ++ [fst (generatePipe w)]
  else pipes w.
Proof.
  unfold spawnPipe.
  destruct (match last (pipes w) with
            | Some pipe => Qlt_bool (pipe_x pipe) (CANVAS_WIDTH - 300)
            | None => true
            end); destruct w; reflexivity.
Qed.

Lemma pipesInv_nil : pipesInv [].
Proof. repeat split. constructor. Qed.

(** One frame in state [playing] keeps the pipes in order. *)
Lemma pipesInv_frame w :
  pipesInv (pipes w) -> pipesInv (pipes (spawnPipe (afterPipes w))).
Proof.
  intros (Hs & Hall & Hlast). rewrite spawnPipe_pipes.
  change (pipes (afterPipes w))
    with (pipesAfter (bird_x (bird w)) (pipes w)).
  set (bx := bird_x (bird w)).
  set (new := fst (generatePipe (afterPipes w))).
  assert (Hnew : pipe_x new = CANVAS_WIDTH) by reflexivity.
  assert (Hs1 : spaced (pipesAfter bx (pipes w))).
  { apply spaced_filter_onScreen, spaced_map_stepPipe, Hs. }
  assert (Hall1 : Forall (fun pipe => (0 <= pipe_x pipe + 80)%Q)
                         (pipesAfter bx (pipes w))).
  { apply Forall_forall. intros q Hq.
    apply elem_of_pipesAfter in Hq as (_ & _ & _ & Hoff).
    apply offScreen_false, Hoff. }
  assert (Hnew_inv : forall l,
            spaced l -> Forall (fun pipe => (0 <= pipe_x pipe + 80)%Q) l ->
            match last l with
            | Some q => (pipe_x new == pipe_x q + 303)%Q
            | None => True
            end ->
            pipesInv (l ++ [new])).
  { intros l Hl1 Hl2 Hl3. split; [apply spaced_snoc; assumption|].
    split.
    - apply Forall_app. split; [exact Hl2|].
      constructor; [|constructor]. rewrite Hnew. unfold CANVAS_WIDTH. lra.
    - rewrite last_snoc. exists 0. split; [lia|].
      rewrite Hnew. unfold CANVAS_WIDTH. reflexivity. }
  destruct (last (pipes w)) as [q|] eqn:El.
  - destruct Hlast as (k & Hk & Hx).
    assert (Hx1 : (pipe_x (stepPipe bx q) == 800 - 3 * inject_Z (k + 1))%Q).
    { rewrite pipe_x_stepPipe, Hx, inject_Z_plus. unfold PIPE_SPEED.
      change (inject_Z 1) with 1%Q. ring. }
    assert (Hk1 : (inject_Z (k + 1) <= 101)%Q).
    { change 101%Q with (inject_Z 101). rewrite <- Zle_Qle. lia. }
    assert (El1 : last (pipesAfter bx (pipes w)) = Some (stepPipe bx q)).
    { unfold pipesAfter. apply last_filter.
      - rewrite last_map, El. reflexivity.
      - apply negb_true_iff, offScreen_false. rewrite Hx1. lra. }
    rewrite El1.
    destruct (Qlt_bool (pipe_x (stepPipe bx q)) (CANVAS_WIDTH - 300)) eqn:Et.
    + apply Hnew_inv; [exact Hs1|exact Hall1|]. rewrite El1.
      apply Qlt_bool_iff in Et. unfold CANVAS_WIDTH in Et.
      rewrite Hx1 in Et.
      assert (H100 : (inject_Z 100 < inject_Z (k + 1))%Q)
        by (change (inject_Z 100) with 100%Q; lra).
      rewrite <- Zlt_Qlt in H100.
      assert (Ek : k + 1 = 101) by lia.
      rewrite Hnew, Hx1, Ek. unfold CANVAS_WIDTH. reflexivity.
    + split; [exact Hs1|]. split; [exact Hall1|]. rewrite El1.
      exists (k + 1). split; [|exact Hx1].
      apply Qlt_bool_false in Et. unfold CANVAS_WIDTH in Et.
      rewrite Hx1 in Et.
      assert (H100 : (inject_Z (k + 1) <= inject_Z 100)%Q)
        by (change (inject_Z 100) with 100%Q; lra).
      rewrite <- Zle_Qle in H100. lia.
  - assert (Enil : pipes w = []).
    { destruct (pipes w) as [|p l]; [reflexivity|].
      rewrite last_cons in El. destruct (last l); discriminate. }
    rewrite Enil. cbn [pipesAfter List.map List.filter last].
    apply (Hnew_inv []); constructor.
Qed.

Lemma reachable_pipesInv w : reachable w -> pipesInv (pipes w).
Proof.
  induction 1 as [saved|w Hr IH|canvas ctx w w' Hr IH Hw].
  - apply pipesInv_nil.
  - destruct (jump_fields w) as (_ & _ & Hj).
    destruct (gameState w); destruct Hj as (_ & _ & Hp & _); rewrite Hp;
      [apply pipesInv_nil|exact IH|apply pipesInv_nil].
  - destruct (canvas && ctx) eqn:Hs.
    2:{ rewrite gameLoop_no_surface in Hw by exact Hs.
        injection Hw as <-. exact IH. }
    apply andb_true_iff in Hs as [-> ->].
    assert (Hidle : gameState w <> playing -> pipesInv (pipes w')).
    { intros Hg. rewrite gameLoop_not_playing in Hw by exact Hg.
      injection Hw as <-. destruct w; exact IH. }
    destruct (gameState w) eqn:Hg;
      [apply Hidle; discriminate| |apply Hidle; discriminate].
    rewrite gameLoop_playing in Hw by exact Hg. injection Hw as <-.
    cbv zeta.
    destruct (collide_keeps (score w) (highScore w)
                (spawnPipe (afterPipes w))) as (_ & _ & Hp).
    set (w1 := collide _ _ _) in *.
    replace (pipes (set_particles (particlesAfter (particles w1)) w1))
      with (pipes w1) by (destruct w1; reflexivity).
    rewrite Hp. apply pipesInv_frame, IH.
Qed.

Lemma spaced_below_last l :
  forall p q,
    spaced (p :: l) -> last (p :: l) = Some q ->
    Forall (fun pipe => (pipe_x pipe <= pipe_x q)%Q) (p :: l).
Proof.
  induction l as [|p' l IH]; intros p q Hs Hl.
  - cbn in Hl. injection Hl as ->. constructor; [lra|constructor].
  - pose proof (spaced_last_x _ _ _ Hs Hl) as Hx.
    pose proof (Qn_nonneg (length (p' :: l))) as Hn.
    constructor; [lra|].
    destruct Hs as [_ Hs]. rewrite last_cons in Hl.
    apply IH; [exact Hs|].
    destruct (last (p' :: l)) eqn:E; [exact Hl|].
    rewrite last_cons in E. destruct (last l); discriminate.
Qed.

(** X5.  In every world of a run the pipes stand exactly 303 apart, in
    the order they were made, each between [x = -80] and [x = 800]; so the
    array never holds more than three pipes. *)
Theorem pipes_spacing (w : World) :
  reachable w ->
  spaced (pipes w) /\
  Forall (fun pipe => (- PIPE_WIDTH <= pipe_x pipe)%Q /\
                      (pipe_x pipe <= CANVAS_WIDTH)%Q) (pipes w) /\
  (length (pipes w) <= 3)%nat.
Proof.
  intros Hr. destruct (reachable_pipesInv w Hr) as (Hs & Hall & Hlast).
  split; [exact Hs|].
  destruct (pipes w) as [|p l] eqn:El; [repeat constructor|].
  destruct (last (p :: l)) as [q|] eqn:Eq;
    [|rewrite last_cons in Eq; destruct (last l); discriminate].
  destruct Hlast as (k & Hk & Hq).
  assert (Hk0 : (0 <= inject_Z k)%Q)
    by (change 0%Q with (inject_Z 0); rewrite <- Zle_Qle; lia).
  pose proof (spaced_below_last _ _ _ Hs Eq) as Hle.
  split.
  - apply Forall_forall. intros r Hin.
    rewrite Forall_forall in Hall, Hle.
    specialize (Hall r Hin). specialize (Hle r Hin).
    unfold PIPE_WIDTH, CANVAS_WIDTH. split; lra.
  - pose proof (spaced_last_x _ _ _ Hs Eq) as Hx.
    assert (Hp : (0 <= pipe_x p + 80)%Q) by (inversion Hall; assumption).
    destruct l as [|a [|b [|c l]]]; cbn [length]; try lia.
    exfalso. cbn [length] in Hx. rewrite !Qn_S in Hx.
    pose proof (Qn_nonneg (length l)). lra.
Qed.

(** ** Frames in a row *)

Lemma frames_total n : forall w, exists w', frames n w = Some w'.
Proof.
  induction n as [|n IH]; intros w; cbn [frames].
  - exists w. reflexivity.
  - destruct (gameLoop_total true true w) as (w1 & E). rewrite E.
    cbn [mbind option_bind]. apply IH.
Qed.

Lemma frames_gameState n :
  forall w w',
    frames n w = Some w' ->
    gameState w' = gameState w \/
    (gameState w = playing /\ gameState w' = gameOver).
Proof.
  induction n as [|n IH]; intros w w' Hw; cbn [frames] in Hw.
  - injection Hw as <-. left. reflexivity.
  - destruct (gameLoop true true w) as [w1|] eqn:E; [|discriminate].
    cbn [mbind option_bind] in Hw.
    destruct (gameLoop_gameState _ _ _ _ E) as [H1|[H1 H1']];
      destruct (IH w1 w' Hw) as [H2|[H2 H2']]; try congruence.
    + left. congruence.
    + right. split; congruence.
    + right. split; congruence.
Qed.

(** X6.  What a frame does to the state: without a canvas or without a
    drawing context it changes nothing at all; otherwise it leaves [menu]
    and [gameOver] as they are, and it leaves [playing] for [gameOver]
    exactly when the collision test on the moved bird and the new pipes is
    positive.  No frame leads to [menu] or back to [playing]. *)
Theorem frame_transitions (canvas ctx : bool) (w w' : World) :
  gameLoop canvas ctx w = Some w' ->
  (canvas && ctx = false -> w' = w) /\
  (canvas && ctx = true ->
   gameState w' =
   match gameState w with
   | playing =>
       if checkCollision (bird w') (pipes w') then gameOver else playing
   | menu => menu
   | gameOver => gameOver
   end).
Proof.
  intros Hw. split; intros Hs.
  - rewrite gameLoop_no_surface in Hw by exact Hs. congruence.
  - apply andb_true_iff in Hs as [-> ->].
    assert (Hidle : gameState w <> playing -> gameState w' = gameState w).
    { intros Hg. rewrite gameLoop_not_playing in Hw by exact Hg.
      injection Hw as <-. destruct w; reflexivity. }
    destruct (gameState w) eqn:Hg;
      [apply Hidle; discriminate| |apply Hidle; discriminate].
    destruct (highScore_after_frame w Hg) as (w1 & Hw1 & Hs & _).
    rewrite Hw1 in Hw. injection Hw as <-. exact Hs.
Qed.

(** X7.  Left alone, every game ends: from any world of a run in state
    [playing], 70 frames without an activate event end in [gameOver]
    (the bird, which starts above [y = 15] and no faster upwards than
    [-12], would otherwise stand 651 or more below where it started). *)
Theorem game_ends_within_70_frames (w : World) :
  reachable w ->
  gameState w = playing ->
  exists w', frames 70 w = Some w' /\ gameState w' = gameOver.
Proof.
  intros Hr Hg. destruct (frames_total 70 w) as (w' & Hw).
  exists w'. split; [exact Hw|].
  destruct (frames_gameState 70 w w' Hw) as [H|[_ H]]; [|exact H].
  exfalso. rewrite Hg in H.
  destruct (frames_in_flight 70 w w' Hw H) as (_ & Hb & Hc).
  specialize (Hc ltac:(discriminate)).
  destruct (checkCollision_false_bounds _ _ Hc) as (_ & Hy).
  destruct (iter_updateBird 70 (bird w)) as (_ & _ & Hy').
  rewrite <- Hb in Hy'.
  destruct (reachable_bird w Hr) as (_ & _ & _ & Hp).
  destruct (Hp Hg) as (Y1 & _ & V).
  assert (E70 : (Qn 70 == 70)%Q) by reflexivity.
  rewrite E70 in Hy'. lra.
Qed.

(** ** Particles over time *)

Lemma set_particles_twice l1 l2 w :
  set_particles l1 (set_particles l2 w) = set_particles l1 w.
Proof. destruct w; reflexivity. Qed.

(** Frames outside [playing] only run the particle loop. *)
Lemma frames_idle n :
  forall w,
    gameState w <> playing ->
    frames n w =
    Some (set_particles (Nat.iter n particlesAfter (particles w)) w).
Proof.
  induction n as [|n IH]; intros w Hg; cbn [frames].
  - cbn [Nat.iter nat_rect]. destruct w; reflexivity.
  - rewrite gameLoop_not_playing by exact Hg. cbn [mbind option_bind].
    rewrite IH by (destruct w; exact Hg).
    rewrite particles_set_particles, set_particles_twice.
    rewrite <- Nat.iter_succ_r. reflexivity.
Qed.

Lemma particlesAfter_life k l :
  Forall (fun p => particle_life p <= k + 1) l ->
  Forall (fun p => particle_life p <= k) (particlesAfter l).
Proof.
  intros H. apply Forall_forall. intros q Hq.
  unfold particlesAfter in Hq.
  apply list_elem_of_In, List.filter_In in Hq as (Hq & _).
  apply List.in_map_iff in Hq as (p & <- & Hp).
  rewrite Forall_forall in H. specialize (H p (proj2 (list_elem_of_In _ _) Hp)).
  cbn [advanceParticle particle_life]. lia.
Qed.

Lemma particlesAfter_last l :
  Forall (fun p => particle_life p <= 1) l -> particlesAfter l = [].
Proof.
  intros H. unfold particlesAfter.
  induction H as [|p l Hp _ IH]; [reflexivity|].
  cbn [List.map List.filter advanceParticle particle_life].
  replace (particle_life p - 1 <=? 0) with true
    by (symmetry; apply Z.leb_le; lia).
  exact IH.
Qed.

Lemma particles_gone k :
  forall l,
    Forall (fun p => particle_life p <= Z.of_nat (S k)) l ->
    Nat.iter (S k) particlesAfter l = [].
Proof.
  induction k as [|k IH]; intros l H.
  - cbn [Nat.iter nat_rect]. apply particlesAfter_last. exact H.
  - rewrite Nat.iter_succ_r. apply IH.
    apply particlesAfter_life.
    eapply Forall_impl; [exact H|]. intros p Hp. cbn beta in *. lia.
Qed.

Lemma particles_stay_gone n : Nat.iter n particlesAfter [] = [].
Proof. induction n as [|n IH]; [reflexivity|]. rewrite Nat.iter_succ, IH. reflexivity. Qed.

(** X8.  After a crash the burst dies out: in any world of a run whose
    state is not [playing], 30 frames or more leave no particle, and leave
    the state, the bird, the pipes, the score, the best score and the
    store as they were. *)
Theorem particles_die_out (n : nat) (w : World) :
  reachable w ->
  gameState w <> playing ->
  (30 <= n)%nat ->
  exists w',
    frames n w = Some w' /\
    particles w' = [] /\
    gameState w' = gameState w /\ bird w' = bird w /\ pipes w' = pipes w /\
    score w' = score w /\ highScore w' = highScore w /\
    localStorage w' = localStorage w.
Proof.
  intros Hr Hg Hn. eexists. split; [apply frames_idle, Hg|].
  split; [|destruct w; repeat split].
  rewrite particles_set_particles.
  replace n with ((n - 30) + 30)%nat by lia.
  rewrite Nat.iter_add, particles_gone; [apply particles_stay_gone|].
  pose proof (reachable_particles w Hr) as Hok.
  eapply Forall_impl; [exact Hok|].
  intros p ((_ & H1) & H2). cbn beta. lia.
Qed.

(** ** The best score over a run *)

(** X9.  The best score never goes down: an activate event leaves it as
    it is, a frame leaves it as it is or raises it, and a best score that
    is [NaN] stays [NaN] for ever. *)
Theorem highScore_never_decreases (w w' : World) :
  (jump w = w' \/ exists canvas ctx, gameLoop canvas ctx w = Some w') ->
  match highScore w with
  | Num h => exists h', highScore w' = Num h' /\ h <= h'
  | NaN => highScore w' = NaN
  end.
Proof.
  intros [<-|(canvas & ctx & Hw)].
  - rewrite jump_highScore. destruct (highScore w); [reflexivity|].
    eexists. split; [reflexivity|lia].
  - exact (highScore_monotone canvas ctx w w' Hw).
Qed.

(** ** The speed of particles *)

Section ParticleSpeed.

Hypothesis random_range : forall n, (0 <= random n)%Q /\ (random n < 1)%Q.

Lemma pushParticle_speed x y w :
  Forall particleSpeedOk (particles w) ->
  Forall particleSpeedOk (particles (pushParticle x y w)).
Proof.
  intros H. destruct w as [g sc h b ps pt ls rc].
  unfold pushParticle, Math_random.
  cbn [particles set_particles set_randomCalls randomCalls] in *.
  apply Forall_app. split; [exact H|]. constructor; [|constructor].
  destruct (random_range rc) as (A1 & A2).
  destruct (random_range (S rc)) as (B1 & B2).
  unfold particleSpeedOk.
  cbn [particle_velocity_x particle_velocity_y particle_life].
  change (inject_Z (30 - 30)) with 0%Q. repeat split; lra.
Qed.

Lemma addParticles_speed x y count :
  forall w,
    Forall particleSpeedOk (particles w) ->
    Forall particleSpeedOk (particles (addParticles x y count w)).
Proof.
  induction count as [|n IH]; intros w H; cbn [addParticles]; [exact H|].
  apply IH, pushParticle_speed, H.
Qed.

Lemma particlesAfter_speed l :
  Forall particleSpeedOk l -> Forall particleSpeedOk (particlesAfter l).
Proof.
  intros H. apply Forall_forall. intros q Hq. unfold particlesAfter in Hq.
  apply list_elem_of_In, List.filter_In in Hq as (Hq & _).
  apply List.in_map_iff in Hq as (p & <- & Hp).
  rewrite Forall_forall in H.
  destruct (H p (proj2 (list_elem_of_In _ _) Hp)) as (A1 & A2 & A3 & A4).
  unfold particleSpeedOk.
  cbn [advanceParticle particle_velocity_x particle_velocity_y
       particle_life].
  replace (30 - (particle_life p - 1)) with ((30 - particle_life p) + 1)
    by lia.
  rewrite inject_Z_plus. change (inject_Z 1) with 1%Q.
  repeat split; lra.
Qed.

Lemma collide_speed score0 highScore0 w :
  Forall particleSpeedOk (particles w) ->
  Forall particleSpeedOk (particles (collide score0 highScore0 w)).
Proof.
  intros H. unfold collide.
  destruct (checkCollision (bird w) (pipes w)); [|exact H].
  assert (H1 : Forall particleSpeedOk
                 (particles (addParticles
                    (bird_x (bird (setGameState gameOver w)))
                    (bird_y (bird (setGameState gameOver w))) 15
                    (setGameState gameOver w))))
    by (apply addParticles_speed; destruct w; exact H).
  destruct (score_gt score0 highScore0); [|exact H1].
  revert H1. generalize (addParticles
                    (bird_x (bird (setGameState gameOver w)))
                    (bird_y (bird (setGameState gameOver w))) 15
                    (setGameState gameOver w)).
  intros w1 H1. destruct w1; exact H1.
Qed.

Lemma reachable_speed w : reachable w -> Forall particleSpeedOk (particles w).
Proof.
  induction 1 as [saved|w Hr IH|canvas ctx w w' Hr IH Hw].
  - constructor.
  - unfold jump. destruct (gameState w).
    + destruct w; constructor.
    + apply addParticles_speed. destruct w; exact IH.
    + destruct w; constructor.
  - destruct (canvas && ctx) eqn:Hs.
    2:{ rewrite gameLoop_no_surface in Hw by exact Hs.
        injection Hw as <-. exact IH. }
    apply andb_true_iff in Hs as [-> ->].
    destruct (gameState w) eqn:Hg.
    + rewrite gameLoop_not_playing in Hw by (rewrite Hg; discriminate).
      injection Hw as <-. rewrite particles_set_particles.
      apply particlesAfter_speed, IH.
    + rewrite gameLoop_playing in Hw by exact Hg. injection Hw as <-.
      cbv zeta. rewrite particles_set_particles.
      apply particlesAfter_speed, collide_speed.
      destruct (spawnPipe_spec (afterPipes w)) as (_&_&_&_& E &_).
      rewrite E. exact IH.
    + rewrite gameLoop_not_playing in Hw by (rewrite Hg; discriminate).
      injection Hw as <-. rewrite particles_set_particles.
      apply particlesAfter_speed, IH.
Qed.

(** X10.  With [Math.random] in [[0, 1)], every particle of a run moves
    sideways at a speed in [[-4, 4)] and vertically at a speed in
    [[-6, 11)]: drawn in [[-6, 2)], where it still is while the particle
    has its full life, the vertical speed only grows, by 0.3 a frame for
    the 29 frames at most that a particle is moved and kept. *)
Theorem particle_speed (w : World) :
  reachable w ->
  forall p, p ∈ particles w ->
    (-4 <= particle_velocity_x p)%Q /\ (particle_velocity_x p < 4)%Q /\
    (-6 <= particle_velocity_y p)%Q /\ (particle_velocity_y p < 11)%Q /\
    (particle_life p = particle_maxLife p ->
     (particle_velocity_y p < 2)%Q).
Proof.
  intros Hr p Hp. pose proof (reachable_speed w Hr) as H.
  pose proof (reachable_particles w Hr) as Hok.
  rewrite Forall_forall in H, Hok.
  destruct (H p Hp) as (A1 & A2 & A3 & A4).
  destruct (Hok p Hp) as ((L1 & L2) & L3).
  assert (K0 : (0 <= inject_Z (30 - particle_life p))%Q).
  { change 0%Q with (inject_Z 0). rewrite <- Zle_Qle. lia. }
  assert (K1 : (inject_Z (30 - particle_life p) <= 29)%Q).
  { change 29%Q with (inject_Z 29). rewrite <- Zle_Qle. lia. }
  split; [exact A1|]. split; [exact A2|]. split; [lra|]. split; [lra|].
  intros E. rewrite E, L3 in A4. change (inject_Z (30 - 30)) with 0%Q in A4.
  lra.
Qed.

End ParticleSpeed.

(** ** Reading the store back *)

Lemma parseDigits_stop R c t acc :
  (forall d, digitValue c = Some d -> R <= d) ->
  parseDigits R (String c t) acc = acc.
Proof.
  intros H. cbn [parseDigits]. destruct (digitValue c) as [d|]; [|reflexivity].
  specialize (H d eq_refl). apply Z.ltb_ge in H. rewrite H. reflexivity.
Qed.

Lemma parseDigits_stop_at R r acc :
  match r with
  | EmptyString => True
  | String c _ => forall d, digitValue c = Some d -> R <= d
  end ->
  parseDigits R r acc = acc.
Proof. destruct r; [reflexivity|]. apply parseDigits_stop. Qed.

Lemma parseDigits_acc_then d r :
  forall acc : positive,
    parseDigits 10 (String.append (NilEmpty.string_of_uint d) r) (Some (Zpos acc))
    = parseDigits 10 r (Some (Zpos (Pos.of_uint_acc d acc))).
Proof.
  induction d; intros acc;
    cbn [NilEmpty.string_of_uint Pos.of_uint_acc String.append];
    [reflexivity|..];
    [digit_step 0|digit_step 1|digit_step 2|digit_step 3|digit_step 4
    |digit_step 5|digit_step 6|digit_step 7|digit_step 8|digit_step 9];
    rewrite <- IHd; do 2 f_equal; lia.
Qed.

Lemma parseDigits_start_then d r :
  d <> Decimal.Nil ->
  (forall d', d <> Decimal.D0 d') ->
  exists p,
    Pos.of_uint d = Npos p /\
    parseDigits 10 (String.append (NilEmpty.string_of_uint d) r) None
    = parseDigits 10 r (Some (Zpos p)).
Proof.
  intros Hd H0.
  destruct d; [congruence|exfalso; exact (H0 _ eq_refl)|..];
    cbn [NilEmpty.string_of_uint Pos.of_uint String.append];
    eexists; (split; [reflexivity|]);
    [digit_step 1|digit_step 2|digit_step 3|digit_step 4
    |digit_step 5|digit_step 6|digit_step 7|digit_step 8|digit_step 9];
    apply parseDigits_acc_then.
Qed.

Lemma parseInt_zero_then r :
  match r with
  | EmptyString => True
  | String c _ =>
      (forall d, digitValue c = Some d -> 10 <= d) /\
      c <> "x"%char /\ c <> "X"%char
  end ->
  parseInt (String "0" r) = Num 0.
Proof.
  destruct r as [|c t]; [reflexivity|]. intros (Hd & Hx & HX).
  assert (E : parseDigits 10 (String "0" (String c t)) None = Some 0).
  { digit_step 0. apply parseDigits_stop, Hd. }
  revert E.
  destruct c as [[] [] [] [] [] [] [] []]; try congruence;
    unfold parseInt; lazy -[parseDigits Z.mul]; intros ->; reflexivity.
Qed.

(** X11.  What was written is read back, whatever follows it: when the
    store holds the decimal writing of a score [n], an integer from 0 to
    [2 ^ 53 - 1] (the integers that binary64 numbers hold exactly and that
    [toString] prints digit by digit), followed by nothing or by text that
    does not begin with a decimal digit (nor, when [n = 0], with [x] or
    [X], which would make it a hexadecimal literal), the initial best score
    is [n]. *)
Theorem stored_score_read_back (n : Z) (r : string) :
  0 <= n ->
  n <= 9007199254740991 ->
  match r with
  | EmptyString => True
  | String c _ =>
      (forall d, digitValue c = Some d -> 10 <= d) /\
      (n = 0 -> c <> "x"%char /\ c <> "X"%char)
  end ->
  parseInt (String.append (toString n) r) = Num n /\
  initHighScore (Some (String.append (toString n) r)) = Num n.
Proof.
  intros Hn _ Hr.
  assert (Hp : parseInt (String.append (toString n) r) = Num n).
  { destruct n as [|p|p]; [| |lia].
    - change (String.append (toString 0) r) with (String "0" r).
      apply parseInt_zero_then. destruct r; [exact I|].
      destruct Hr as (Hd & Hx). destruct (Hx eq_refl). auto.
    - unfold toString. cbn [Z.to_int NilZero.string_of_int].
      pose proof (DecimalPos.Unsigned.to_uint_nonnil p) as Hnil.
      pose proof (to_uint_leading p) as Hlead.
      pose proof (DecimalPos.Unsigned.of_to p) as Hof.
      destruct (parseDigits_start_then _ r Hnil Hlead) as (q & Hq & Hd).
      rewrite Hof in Hq. injection Hq as <-.
      assert (Hstop : parseDigits 10 r (Some (Z.pos p)) = Some (Z.pos p)).
      { apply parseDigits_stop_at. destruct r; [exact I|apply Hr]. }
      rewrite Hstop in Hd. unfold NilZero.string_of_uint.
      destruct (Pos.to_uint p) as [|d|d|d|d|d|d|d|d|d|d];
        [congruence|exfalso; exact (Hlead d eq_refl)|..];
        cbn [NilEmpty.string_of_uint String.append] in *;
        [rewrite (parseInt_leading_digit _ _ 1) by (try reflexivity; lia)
        |rewrite (parseInt_leading_digit _ _ 2) by (try reflexivity; lia)
        |rewrite (parseInt_leading_digit _ _ 3) by (try reflexivity; lia)
        |rewrite (parseInt_leading_digit _ _ 4) by (try reflexivity; lia)
        |rewrite (parseInt_leading_digit _ _ 5) by (try reflexivity; lia)
        |rewrite (parseInt_leading_digit _ _ 6) by (try reflexivity; lia)
        |rewrite (parseInt_leading_digit _ _ 7) by (try reflexivity; lia)
        |rewrite (parseInt_leading_digit _ _ 8) by (try reflexivity; lia)
        |rewrite (parseInt_leading_digit _ _ 9) by (try reflexivity; lia)];
        rewrite Hd; reflexivity. }
  split; [exact Hp|]. unfold initHighScore.
  destruct (String.append (toString n) r); [discriminate Hp|exact Hp].
Qed.

(** ** What is drawn and what collides *)

Lemma hitsPipe_overlaps b pipe :
  (0 < bird_y b - BIRD_SIZE / 2)%Q ->
  (bird_y b + BIRD_SIZE / 2 < CANVAS_HEIGHT - 50)%Q ->
  (hitsPipe b pipe = true <->
   overlapsBird b (pipe_x pipe) 0 PIPE_WIDTH (pipe_topHeight pipe) \/
   overlapsBird b (pipe_x pipe) (pipe_bottomY pipe) PIPE_WIDTH
                (CANVAS_HEIGHT - pipe_bottomY pipe - 50)).
Proof.
  intros H1 H2. rewrite hitsPipe_iff. unfold overlapsBird.
  unfold CANVAS_HEIGHT, PIPE_WIDTH in *. half_size.
  split.
  - intros (A & B & [C|C]); [left|right]; repeat split; lra.
  - intros [(A & B & C & D)|(A & B & C & D)];
      (split; [lra|split; [lra|]]); [left|right]; lra.
Qed.

(** X12.  The collision test sees exactly what is drawn of the pipes'
    bodies: for a bird clear of the ceiling and of the ground line, it is
    positive if and only if the bird's 30 by 30 box shares a region of
    positive area with the upper or the lower body of some pipe, that is,
    with the first or the third rectangle the frame fills for that
    pipe. *)
Theorem collision_matches_drawn_bodies (b : Bird) (l : list Pipe) :
  (0 < bird_y b - BIRD_SIZE / 2)%Q ->
  (bird_y b + BIRD_SIZE / 2 < CANVAS_HEIGHT - 50)%Q ->
  (checkCollision b l = true <->
   exists pipe x y w h,
     pipe ∈ l /\
     (drawPipe pipe !! 0%nat = Some (FillRect x y w h) \/
      drawPipe pipe !! 2%nat = Some (FillRect x y w h)) /\
     overlapsBird b x y w h).
Proof.
  intros H1 H2.
  assert (Hc : checkCollision b l = checkPipes b l).
  { unfold checkCollision.
    destruct (Qge_bool _ _) eqn:E1.
    { apply Qge_bool_iff in E1. lra. }
    destruct (Qle_bool _ _) eqn:E2; [|reflexivity].
    apply Qle_bool_iff in E2. lra. }
  rewrite Hc, checkPipes_iff. split.
  - intros (pipe & Hin & Hh).
    apply (hitsPipe_overlaps b pipe H1 H2) in Hh as [Hh|Hh].
    + exists pipe. do 4 eexists. split; [exact Hin|].
      split; [left; reflexivity|exact Hh].
    + exists pipe. do 4 eexists. split; [exact Hin|].
      split; [right; reflexivity|exact Hh].
  - intros (pipe & x & y & w & h & Hin & [Hd|Hd] & Ho);
      cbn in Hd; injection Hd as <- <- <- <-;
      exists pipe; (split; [exact Hin|]);
      apply (hitsPipe_overlaps b pipe H1 H2); [left|right]; exact Ho.
Qed.

(** X13.  The caps are drawn 5 wider than the bodies on each side, and
    that rim does not collide: a bird whose box overlaps the upper cap of
    a pipe (the second rectangle filled for it) but ends at or before the
    body's left edge is not hit by that pipe. *)
Theorem cap_rim_does_not_collide (b : Bird) (pipe : Pipe) :
  (pipe_x pipe - 5 < bird_x b + BIRD_SIZE / 2)%Q ->
  (bird_x b + BIRD_SIZE / 2 <= pipe_x pipe)%Q ->
  (bird_y b - BIRD_SIZE / 2 < pipe_topHeight pipe)%Q ->
  (pipe_topHeight pipe - 30 < bird_y b + BIRD_SIZE / 2)%Q ->
  drawPipe pipe !! 1%nat
  = Some (FillRect (pipe_x pipe - 5) (pipe_topHeight pipe - 30)
                   (PIPE_WIDTH + 10) 30) /\
  overlapsBird b (pipe_x pipe - 5) (pipe_topHeight pipe - 30)
               (PIPE_WIDTH + 10) 30 /\
  hitsPipe b pipe = false.
Proof.
  intros H1 H2 H3 H4. split; [reflexivity|]. split.
  - unfold overlapsBird, PIPE_WIDTH. revert H1 H2 H3 H4. half_size.
    intros. repeat split; lra.
  - apply not_true_iff_false. rewrite hitsPipe_iff.
    revert H1 H2 H3 H4. half_size. intros H1 H2 H3 H4 (A & _). lra.
Qed.

(** ** The state of the canvas *)

Lemma runCmds_app c l1 l2 :
  runCmds c (l1 ++ l2) = runCmds (runCmds c l1) l2.
Proof. apply fold_left_app. Qed.

Lemma runCmds_flat_map {A} (f : A -> list Cmd) (l : list A) :
  forall c,
    (forall a c', runCmds c' (f a) = c') ->
    runCmds c (List.flat_map f l) = c.
Proof.
  induction l as [|a l IH]; intros c Hf; [reflexivity|].
  cbn [List.flat_map]. rewrite runCmds_app, Hf. apply IH, Hf.
Qed.

Lemma runCmds_drawParticles l :
  forall c, runCmds c (drawParticles l) = (1%Q, snd c).
Proof.
  unfold drawParticles. intros c. rewrite runCmds_app.
  assert (H : forall c, snd (runCmds c (List.flat_map drawParticle l)) = snd c).
  { induction l as [|p l IH]; intros c'; [reflexivity|].
    cbn [List.flat_map]. rewrite runCmds_app, IH. reflexivity. }
  cbn. rewrite H. reflexivity.
Qed.

(** X14.  A frame leaves the canvas as it found it where transparency is
    concerned: whatever the world, the clock, the alpha and the stack of
    saved states before the drawing, after it the alpha is 1 and the stack
    the same (every [save] has met its [restore], and the alpha set for
    the clouds and for each particle is put back to 1). *)
Theorem canvas_left_opaque (now : Z) (w0 w : World) (alpha : Q)
    (saved : list Q) :
  runCmds (alpha, saved) (render now w0 w) = (1%Q, saved).
Proof.
  unfold render. rewrite !runCmds_app.
  change (runCmds (alpha, saved) drawSky) with (alpha, saved).
  change (runCmds (alpha, saved) (drawClouds now)) with (1%Q, saved).
  change (runCmds (1%Q, saved) drawGround) with (1%Q, saved).
  assert (Hp : runCmds (1%Q, saved) (drawPipes (pipes w)) = (1%Q, saved)).
  { unfold drawPipes.
    change (runCmds (1%Q, saved) (FillStyle "#32CD32" :: ?l))
      with (runCmds (1%Q, saved) l).
    apply (runCmds_flat_map drawPipe). intros a c'. reflexivity. }
  rewrite Hp, runCmds_drawParticles. cbn [snd].
  change (runCmds (1%Q, saved) (drawBird (bird w))) with (1%Q, saved).
  destruct (gameState w0); reflexivity.
Qed.

(** ** The clouds *)

Lemma js_rem_range a :
  (0 <= a)%Q ->
  (0 <= js_rem a (CANVAS_WIDTH + 100))%Q /\
  (js_rem a (CANVAS_WIDTH + 100) < CANVAS_WIDTH + 100)%Q.
Proof.
  intros Ha. unfold js_rem, Qtrunc, CANVAS_WIDTH.
  set (q := (a / (800 + 100))%Q).
  assert (Ea : (a == 900 * q)%Q) by (unfold q; field).
  assert (Hq : (0 <= q)%Q) by lra.
  apply Qle_bool_iff in Hq as Hb. rewrite Hb.
  pose proof (Qfloor_le q) as F1. pose proof (Qlt_floor q) as F2.
  rewrite inject_Z_plus in F2. change (inject_Z 1) with 1%Q in F2.
  split; lra.
Qed.

(** X15.  Once the clock is past 0, each of the five clouds is drawn with
    its left circle centred between [x = -50] and [x = 850], at the
    height [50 + 30 i]: the clouds wrap around a strip 900 wide and never
    leave it. *)
Theorem clouds_stay_in_strip (now : Z) (i : nat) :
  0 <= now ->
  (i < 5)%nat ->
  (-50 <= cloudX now i)%Q /\ (cloudX now i < CANVAS_WIDTH + 50)%Q /\
  (50 <= cloudY i)%Q /\ (cloudY i <= 170)%Q /\
  drawCloud now i !! 1%nat
  = Some (Arc (cloudX now i) (cloudY i) 20 0 2).
Proof.
  intros Hn Hi.
  assert (H0 : (0 <= inject_Z now)%Q)
    by (change 0%Q with (inject_Z 0); rewrite <- Zle_Qle; exact Hn).
  assert (I0 : (0 <= inject_Z (Z.of_nat i))%Q)
    by (change 0%Q with (inject_Z 0); rewrite <- Zle_Qle; lia).
  assert (I4 : (inject_Z (Z.of_nat i) <= 4)%Q)
    by (change 4%Q with (inject_Z 4); rewrite <- Zle_Qle; lia).
  destruct (js_rem_range
              (inject_Z now * (1 # 100) + inject_Z (Z.of_nat i) * 160))
    as (R1 & R2); [lra|].
  unfold cloudX, cloudY. unfold CANVAS_WIDTH in *.
  repeat split; lra.
Qed.

(** ** The pipes as they are drawn *)

Section DrawnPipes.

Hypothesis random_range : forall n, (0 <= random n)%Q /\ (random n < 1)%Q.

(** X16.  With [Math.random] in [[0, 1)], every rectangle a frame fills
    for a pipe of a run has a positive width, a height that is not
    negative, and lies between the top of the canvas and its bottom; the
    upper body hangs from the ceiling ([y = 0]) down to [topHeight], and
    the lower body starts at [bottomY]. *)
Theorem drawn_pipes_fit (w : World) (pipe : Pipe) :
  reachable w ->
  pipe ∈ pipes w ->
  (forall x y wd h,
     FillRect x y wd h ∈ drawPipe pipe ->
     (0 < wd)%Q /\ (0 <= h)%Q /\ (0 <= y)%Q /\ (y + h <= CANVAS_HEIGHT)%Q) /\
  (exists h2,
     drawPipe pipe !! 0%nat
     = Some (FillRect (pipe_x pipe) 0 PIPE_WIDTH (pipe_topHeight pipe)) /\
     drawPipe pipe !! 2%nat
     = Some (FillRect (pipe_x pipe) (pipe_bottomY pipe) PIPE_WIDTH h2)).
Proof.
  intros Hr Hin.
  pose proof (reachable_pipes random_range w Hr) as Hok.
  rewrite Forall_forall in Hok. destruct (Hok pipe Hin) as (A & B & C).
  split.
  - intros x y wd h Hd. apply list_elem_of_In in Hd. cbn in Hd.
    unfold CANVAS_HEIGHT, PIPE_WIDTH, PIPE_GAP in *.
    repeat match goal with
           | H : _ \/ _ |- _ => destruct H as [H|H]
           | H : FillRect _ _ _ _ = FillRect _ _ _ _ |- _ =>
               injection H as <- <- <- <-
           | H : FillStyle _ = FillRect _ _ _ _ |- _ => discriminate H
           | H : False |- _ => destruct H
           end; rewrite ?C; repeat split; lra.
  - exists (CANVAS_HEIGHT - pipe_bottomY pipe - 50)%Q.
    cbn. split; reflexivity.
Qed.

End DrawnPipes.

(** ** Events *)

Lemma dispatch_reachable e w w' :
  reachable w -> dispatch e w = Some w' -> reachable w'.
Proof.
  intros Hr He. destruct e as [code| |now canvas ctx]; cbn in He.
  - injection He as <-. unfold handleKeyPress.
    destruct (String.eqb code "Space"); [apply reach_jump|]; exact Hr.
  - injection He as <-. apply reach_jump, Hr.
  - unfold animationFrame in He.
    destruct canvas; cbn [negb] in He; [|injection He as <-; exact Hr].
    destruct ctx; cbn [negb] in He; [|injection He as <-; exact Hr].
    destruct (gameLoop true true w) as [w1|] eqn:E; [|discriminate].
    cbn in He. injection He as <-. exact (reach_frame _ _ _ _ Hr E).
Qed.

Lemma dispatchAll_app l1 l2 w :
  dispatchAll (l1 ++ l2) w = w1 ← dispatchAll l1 w; dispatchAll l2 w1.
Proof.
  revert w. induction l1 as [|e l1 IH]; intros w; [reflexivity|].
  cbn [app dispatchAll]. destruct (dispatch e w) as [w1|]; [|reflexivity].
  cbn [mbind option_bind]. apply IH.
Qed.

(** X17.  Only the Space key and clicks steer the game: whatever events
    reach the component after it is mounted, the world they lead to is a
    world of a run, and it is the same world as when every Space key is
    replaced by a click and every other key is dropped.  The handler asks
    the browser to skip the key's default action for Space, and for
    Space only. *)
Theorem only_space_and_click_steer (saved : option string)
    (events : list Event) :
  dispatchAll events (initialWorld saved)
  = dispatchAll (List.flat_map steering events) (initialWorld saved) /\
  (forall w',
     dispatchAll events (initialWorld saved) = Some w' -> reachable w') /\
  (forall code w,
     fst (handleKeyPress code w) = true <-> code = "Space"%string).
Proof.
  split; [|split].
  - generalize (initialWorld saved).
    induction events as [|e events IH]; intros w; [reflexivity|].
    cbn [List.flat_map]. rewrite dispatchAll_app. cbn [dispatchAll].
    destruct e as [code| |now canvas ctx].
    + cbn [dispatch steering]. unfold handleKeyPress.
      destruct (String.eqb code "Space"); cbn; apply IH.
    + cbn. apply IH.
    + cbn [steering dispatchAll].
      destruct (dispatch (AnimationFrame now canvas ctx) w) as [w1|];
        cbn [mbind option_bind]; [apply IH|reflexivity].
  - assert (H : forall w w', reachable w ->
                  dispatchAll events w = Some w' -> reachable w').
    { induction events as [|e events IH]; intros w w' Hr Hw;
        cbn [dispatchAll] in Hw.
      - injection Hw as <-. exact Hr.
      - destruct (dispatch e w) as [w1|] eqn:E; [|discriminate].
        cbn [mbind option_bind] in Hw.
        apply (IH w1 w'); [|exact Hw].
        exact (dispatch_reachable e w w1 Hr E). }
    intros w' Hw. apply (H _ _ (reach_mount saved) Hw).
  - intros code w. unfold handleKeyPress.
    destruct (String.eqb code "Space") eqn:E; cbn [fst].
    + apply String.eqb_eq in E. tauto.
    + apply String.eqb_neq in E. split; [discriminate|congruence].
Qed.

(** ** The whole frame *)

(** X18.  The animation frame never throws: the two backward loops that
    splice while they walk never read past their array.  With the canvas
    and its context in place it updates the world, draws, and asks for the
    next frame; without either it does none of the three. *)
Theorem frame_never_throws (now : Z) (canvas ctx : bool) (w : World) :
  exists w' drawn requested,
    animationFrame now canvas ctx w = Some (w', drawn, requested) /\
    gameLoop canvas ctx w = Some w' /\
    requested = canvas && ctx /\
    (requested = true -> drawn = render now w w') /\
    (requested = false -> w' = w /\ drawn = []).
Proof.
  unfold animationFrame.
  destruct canvas; cbn [negb andb].
  2:{ exists w, [], false. repeat split; discriminate. }
  destruct ctx; cbn [negb].
  2:{ exists w, [], false. repeat split; discriminate. }
  destruct (gameLoop_total true true w) as (w' & E). rewrite E.
  exists w', (render now w w'), true. repeat split; discriminate.
Qed.

End Game.

(** * The properties on the sample worlds *)

(** Runs [gameLoop] on a sample world and puts the world it returns in
    place of the one asked for. *)
Ltac run_frame :=
  match goal with
  | |- context [gameLoop ?r ?c ?x ?w = Some _] =>
      let w' := fresh "w'" in
      let E := fresh "E" in
      destruct (gameLoop r c x w) as [w'|] eqn:E;
      vm_compute in E; [|discriminate];
      injection E as <-
  end.

Lemma coin_range : forall n, (0 <= coin n)%Q /\ (coin n < 1)%Q.
Proof. intros n. unfold coin. split; lra. Defined.

Lemma launchedWorld_frame :
  gameLoop coin true true (jump coin (initialWorld None)) = Some launchedWorld.
Proof. vm_compute. reflexivity. Defined.

Lemma launchedWorld_reachable : reachable coin launchedWorld.
Proof.
  eapply reach_frame; [|exact launchedWorld_frame].
  apply reach_jump, reach_mount.
Defined.

Lemma checkCollision_spec_witness :
  checkCollision (mkBird 150%Q 300%Q 0%Q 0%Q)
                 [mkPipe 100%Q 200%Q 400%Q false] = false.
Proof.
  apply (checkCollision_spec coin (mkBird 150%Q 300%Q 0%Q 0%Q)
           [mkPipe 100%Q 200%Q 400%Q false]).
  - cbn. lra.
  - cbn. lra.
  - intros pipe Hin _ _. apply list_elem_of_singleton in Hin. subst pipe.
    cbn. lra.
Defined.

Lemma score_on_passing_witness :
  gameState divingWorld = playing /\
  exists w',
    gameLoop coin true true divingWorld = Some w' /\
    score w' = score divingWorld + 1.
Proof.
  split; [reflexivity|].
  destruct (score_on_passing coin divingWorld eq_refl) as (w' & Hw & Hs & _).
  exists w'. split; [exact Hw|]. rewrite Hs. reflexivity.
Defined.

Lemma pipe_removed_iff_off_screen_witness :
  gameState cruisingWorld = playing /\
  exists w',
    gameLoop coin true true cruisingWorld = Some w' /\
    mkPipe (2 - 3)%Q 200%Q 400%Q true ∈ pipes w'.
Proof.
  split; [reflexivity|].
  destruct (pipe_removed_iff_off_screen coin cruisingWorld eq_refl)
    as (w' & Hw & Hiff & _).
  exists w'. split; [exact Hw|].
  apply (Hiff (mkPipe 2%Q 200%Q 400%Q true)).
  - left.
  - cbn. lra.
Defined.

(** C3, as the claim states it, fails: after a frame that takes a pipe from
    [x = 2] to [x = -1], that pipe, 80 wide, is still in the array (its
    trailing edge is at 79). *)
Lemma pipe_at_minus_1_still_present :
  exists w' q,
    gameLoop coin true true cruisingWorld = Some w' /\
    q ∈ pipes w' /\
    (pipe_x q == -1)%Q /\ (pipe_x q + PIPE_WIDTH == 79)%Q.
Proof.
  run_frame. eexists. eexists. split; [reflexivity|].
  split; [left|]. split; reflexivity.
Qed.

Lemma jump_from_menu_or_gameOver_witness :
  gameState crashedWorld = gameOver /\
  gameState (jump coin crashedWorld) = playing /\
  score (jump coin crashedWorld) = 0.
Proof.
  split; [reflexivity|].
  destruct (jump_from_menu_or_gameOver coin crashedWorld (or_intror eq_refl))
    as (Hg & _ & _ & _ & _ & _ & _ & _ & Hs & _).
  split; [exact Hg|exact Hs].
Defined.

Lemma jump_while_playing_witness :
  gameState cruisingWorld = playing /\
  bird_velocity (bird (jump coin cruisingWorld)) = (-12)%Q.
Proof.
  split; [reflexivity|].
  destruct (jump_while_playing coin cruisingWorld eq_refl) as (Hv & Hj & _).
  rewrite Hv. exact Hj.
Defined.

(** C6 on [divingWorld]: the frame earns the point of the first pipe and
    ends the game on that pipe's lower half.  The score goes from 0 to 1,
    the best score was 0, and it stays 0, with nothing written to the
    store: the test [score > highScore] read the score of the last render. *)
Theorem highScore_misses_point_of_crash_frame :
  gameState divingWorld = playing /\
  score divingWorld = 0 /\
  highScore divingWorld = Num 0 /\
  exists w',
    gameLoop coin true true divingWorld = Some w' /\
    gameState w' = gameOver /\
    score w' = 1 /\
    highScore w' = Num 0 /\
    localStorage w' = None.
Proof.
  repeat split. run_frame. eexists. split; [reflexivity|]. repeat split.
Qed.

Lemma generated_pipes_in_range_witness :
  (forall n, (0 <= coin n)%Q /\ (coin n < 1)%Q) /\
  pipe_topHeight (Binary64.generatePipe (1 # 2)) = 200%Q /\
  (pipe_bottomY (Binary64.generatePipe (1 # 3)) <= 600 - 50)%Q /\
  reachable coin launchedWorld /\
  Forall (fun pipe => (0 < pipe_topHeight pipe)%Q /\
                      (pipe_bottomY pipe <= 600 - 50)%Q)
         (pipes launchedWorld).
Proof.
  destruct (generated_pipes_in_range coin coin_range) as [Hgen Hrun].
  split; [exact coin_range|].
  split.
  { destruct (Hgen (1 # 2)%Q) as (_ & _ & _ & Ht & _);
      [vm_compute; discriminate | vm_compute; reflexivity |].
    rewrite Ht. vm_compute. reflexivity. }
  split.
  { destruct (Hgen (1 # 3)%Q) as (_ & _ & _ & _ & _ & _ & _ & Hb);
      [vm_compute; discriminate | vm_compute; reflexivity |].
    exact Hb. }
  split; [exact launchedWorld_reachable|].
  apply Forall_forall. intros pipe Hin.
  exact (Hrun launchedWorld launchedWorld_reachable pipe Hin).
Defined.

(** C7, as the claim states it, fails: [Math.random] can return
    [1 - 2 ^ -53], the largest number below 1.  The product with 300 rounds
    to [300 - 2 ^ -44], the sum with 50 is exact, and the sum with 200,
    half way between two binary64 numbers, rounds to the even one, 550:
    [bottomY] is not below 550.  The kernel's own binary64 numbers give the
    same [bottomY] for the expression of the source. *)
Lemma edge_draw_puts_bottomY_at_550 :
  let pipe := Binary64.generatePipe Binary64.below1 in
  (0 <= Binary64.below1)%Q /\ (Binary64.below1 < 1)%Q /\
  Binary64.ofFloat 0x1.fffffffffffffp-1 = Some Binary64.below1 /\
  pipe_topHeight pipe = (6157265115545599 # 17592186044416)%Q /\
  pipe_bottomY pipe = 550%Q /\
  ~ (pipe_bottomY pipe < 600 - 50)%Q /\
  Binary64.ofFloat
    (0x1.fffffffffffffp-1 * (600 - 200 - 50 - 50) + 50 + 200)%float
  = Some (pipe_bottomY pipe).
Proof. vm_compute. repeat split; discriminate. Qed.

(** [round64] against the kernel's binary64 numbers: a quotient, a sum and
    a product that are not exact, a negative number, a tie, and a
    subnormal number. *)
Lemma round64_agrees_with_primitive_floats :
  Binary64.ofFloat (1 / 10)%float = Some (Binary64.round64 (1 # 10)) /\
  Binary64.ofFloat (1 / 10 + 2 / 10)%float
  = Some (Binary64.add (Binary64.round64 (1 # 10))
                       (Binary64.round64 (2 # 10))) /\
  Binary64.ofFloat (1 / 3 * 300)%float
  = Some (Binary64.mul (Binary64.round64 (1 # 3)) 300) /\
  Binary64.ofFloat (-7 / 1000 - 12)%float
  = Some (Binary64.sub (Binary64.round64 (-7 # 1000)) 12) /\
  Binary64.ofFloat (0x1p53 + 1)%float
  = Some (Binary64.add 9007199254740992 1) /\
  Binary64.ofFloat (0x1p53 + 3)%float
  = Some (Binary64.add 9007199254740992 3) /\
  Binary64.ofFloat (0x1p-1074 * (3 / 4))%float
  = Some (Binary64.mul (Binary64.round64 (2 ^ (-1074))) (3 # 4)).
Proof. vm_compute. repeat split. Qed.

Lemma frame_outside_playing_witness :
  gameState crashedWorld = gameOver /\
  exists w',
    gameLoop coin true true crashedWorld = Some w' /\
    bird w' = bird crashedWorld /\ pipes w' = pipes crashedWorld /\
    score w' = score crashedWorld.
Proof.
  split; [reflexivity|].
  destruct (frame_outside_playing coin crashedWorld (or_intror eq_refl))
    as (w' & Hw & _ & Hs & _ & Hb & Hp & _).
  exists w'. repeat split; assumption.
Defined.

(** C8, as the claim states it, fails: a frame in state [gameOver] moves the
    particles. *)
Lemma particles_move_after_gameOver :
  gameState crashedWorld = gameOver /\
  exists w',
    gameLoop coin true true crashedWorld = Some w' /\
    particles w' =
      replicate 15 (mkParticle (150 + 0)%Q ((2708 # 5) + (-17 # 10))%Q 0%Q
                               ((-17 # 10) + (3 # 10))%Q 28 30) /\
    particles w' <> particles crashedWorld.
Proof.
  split; [reflexivity|]. run_frame. eexists. split; [reflexivity|].
  split; [reflexivity|]. discriminate.
Qed.

(** C9 on a store holding [abc]: the best score starts as [NaN], not 0, and
    no score is ever greater than it. *)
Theorem unparseable_store_gives_NaN :
  initHighScore (Some "abc"%string) = NaN /\
  highScore (initialWorld (Some "abc"%string)) = NaN /\
  (forall s, score_gt s NaN = false).
Proof. repeat split. Qed.

Lemma particles_alive_witness :
  reachable coin (jump coin (jump coin (initialWorld None))) /\
  length (particles (jump coin (jump coin (initialWorld None)))) = 5%nat /\
  Forall (fun p => 1 <= particle_life p <= particle_maxLife p)
         (particles (jump coin (jump coin (initialWorld None)))).
Proof.
  assert (Hr : reachable coin (jump coin (jump coin (initialWorld None))))
    by (do 2 apply reach_jump; apply reach_mount).
  split; [exact Hr|]. split; [reflexivity|].
  apply Forall_forall. intros p Hp.
  destruct (particles_alive coin _ Hr) as (Hall & _).
  apply (Hall p Hp).
Defined.

(** ** The sample worlds are worlds of a run

    Each sample world is, up to the way fractions are written, the world a
    session ends in, and the frame after it does to that world what it does
    to the sample. *)

Lemma crashedWorld_reached :
  exists w,
    session coin [] 28 = Some w /\
    reachable coin w /\
    World_eq w crashedWorld.
Proof.
  apply (session_sessionC coin [] 28 crashedWorld).
  vm_compute. reflexivity.
Qed.

Lemma cruisingWorld_reached :
  exists w w' q,
    session coin cruisingScript 32 = Some w /\
    reachable coin w /\
    World_eq w cruisingWorld /\
    gameLoop coin true true w = Some w' /\
    q ∈ pipes w' /\ (pipe_x q == -1)%Q.
Proof.
  destruct (session_sessionC coin cruisingScript 32 cruisingWorld)
    as (w & Hs & Hr & He); [vm_compute; reflexivity|].
  destruct (gameLoop_total coin true true w) as (w' & Hw).
  destruct (gameLoop_total coin true true cruisingWorld) as (W' & HW).
  pose proof (gameLoop_eq coin _ _ _ _ He Hw HW) as (_&_&_&_& Hp &_).
  vm_compute in HW. injection HW as <-. cbn [pipes] in Hp.
  inversion Hp as [|q q' l l' (Hx & _) _ Hl]; subst.
  exists w, w', q.
  split; [exact Hs|]. split; [exact Hr|]. split; [exact He|].
  split; [exact Hw|]. split; [rewrite <- Hl; left|].
  rewrite Hx. reflexivity.
Qed.

Lemma divingWorld_reached :
  exists w w',
    session coin divingScript 43 = Some w /\
    reachable coin w /\
    World_eq w divingWorld /\
    gameLoop coin true true w = Some w' /\
    gameState w' = gameOver /\
    score w' = 1 /\
    highScore w' = Num 0 /\
    localStorage w' = None.
Proof.
  destruct (session_sessionC coin divingScript 43 divingWorld)
    as (w & Hs & Hr & He); [vm_compute; reflexivity|].
  destruct (gameLoop_total coin true true w) as (w' & Hw).
  destruct (gameLoop_total coin true true divingWorld) as (W' & HW).
  pose proof (gameLoop_eq coin _ _ _ _ He Hw HW)
    as (E1 & E2 & E3 & _ & _ & _ & E7 & _).
  vm_compute in HW. injection HW as <-.
  exists w, w'.
  split; [exact Hs|]. split; [exact Hr|]. split; [exact He|].
  split; [exact Hw|]. rewrite E1, E2, E3, E7. repeat split.
Qed.

(** ** Instances of the further properties *)

Lemma bird_step_witness :
  gameState cruisingWorld = playing /\
  exists w',
    gameLoop coin true true cruisingWorld = Some w' /\
    (bird_velocity (bird w') == 78 # 10)%Q /\
    (bird_y (bird w') == (1497 # 5) + (78 # 10))%Q.
Proof.
  split; [reflexivity|].
  destruct (bird_step coin cruisingWorld eq_refl)
    as (w' & Hw & _ & Hv & Hy & _).
  exists w'. split; [exact Hw|]. rewrite Hy, Hv. cbn [bird cruisingWorld
    bird_velocity bird_y]. split; reflexivity.
Defined.

Lemma bird_in_bounds_witness :
  reachable coin launchedWorld /\
  (bird_x (bird launchedWorld) == 150)%Q /\
  (JUMP_FORCE <= bird_velocity (bird launchedWorld))%Q.
Proof.
  split; [exact launchedWorld_reachable|].
  destruct (bird_in_bounds coin launchedWorld launchedWorld_reachable)
    as (Hx & _ & _ & Hp).
  split; [exact Hx|]. apply (Hp eq_refl).
Defined.

Lemma score_and_store_witness :
  exists w,
    session coin cruisingScript 51 = Some w /\
    reachable coin w /\
    gameState w = gameOver /\
    score w = 1 /\
    highScore w = Num 1 /\
    localStorage w = Some "1"%string /\
    0 <= score w /\
    initHighScore (localStorage w) = highScore w.
Proof.
  destruct (sessionC coin cruisingScript 51) as [W|] eqn:E;
    vm_compute in E; [|discriminate E].
  injection E as E.
  destruct (session_sessionC coin cruisingScript 51 W)
    as (w & Hs & Hr & Hg & Hsc & Hh & _ & _ & _ & Hl & _);
    [rewrite <- E; vm_compute; reflexivity|].
  rewrite <- E in Hg, Hsc, Hh, Hl. cbn in Hg, Hsc, Hh, Hl.
  exists w. split; [exact Hs|]. split; [exact Hr|]. split; [exact Hg|].
  split; [exact Hsc|]. split; [exact Hh|]. split; [exact Hl|].
  exact (score_and_store coin w Hr).
Defined.

Lemma pipes_spacing_witness :
  exists w,
    session coin cruisingScript 32 = Some w /\
    reachable coin w /\
    length (pipes w) = 3%nat /\
    spaced (pipes w) /\
    Forall (fun pipe => (- PIPE_WIDTH <= pipe_x pipe)%Q /\
                        (pipe_x pipe <= CANVAS_WIDTH)%Q) (pipes w).
Proof.
  destruct (session_sessionC coin cruisingScript 32 cruisingWorld)
    as (w & Hs & Hr & _ & _ & _ & _ & Hp & _); [vm_compute; reflexivity|].
  destruct (pipes_spacing coin w Hr) as (A & B & _).
  exists w. split; [exact Hs|]. split; [exact Hr|].
  split; [rewrite (Forall2_length _ _ _ Hp); reflexivity|].
  split; assumption.
Defined.

Lemma frame_transitions_witness :
  gameLoop coin true true (jump coin (initialWorld None))
  = Some launchedWorld /\
  gameState launchedWorld =
  (if checkCollision (bird launchedWorld) (pipes launchedWorld)
   then gameOver else playing).
Proof.
  split; [exact launchedWorld_frame|].
  destruct (frame_transitions coin true true _ _ launchedWorld_frame)
    as (_ & H).
  exact (H eq_refl).
Defined.

Lemma game_ends_within_70_frames_witness :
  reachable coin launchedWorld /\
  gameState launchedWorld = playing /\
  exists w', frames coin 70 launchedWorld = Some w' /\ gameState w' = gameOver.
Proof.
  split; [exact launchedWorld_reachable|]. split; [reflexivity|].
  exact (game_ends_within_70_frames coin launchedWorld
           launchedWorld_reachable eq_refl).
Defined.

Lemma particles_die_out_witness :
  exists w w',
    session coin [] 28 = Some w /\
    reachable coin w /\
    gameState w = gameOver /\
    length (particles w) = 15%nat /\
    frames coin 30 w = Some w' /\
    particles w' = [] /\
    gameState w' = gameOver.
Proof.
  destruct (session_sessionC coin [] 28 crashedWorld)
    as (w & Hs & Hr & Hg & _ & _ & _ & _ & Hp & _);
    [vm_compute; reflexivity|].
  assert (Hne : gameState w <> playing) by (rewrite Hg; discriminate).
  destruct (particles_die_out coin 30 w Hr Hne (le_n 30))
    as (w' & Hf & Hn & Hg' & _).
  exists w, w'.
  split; [exact Hs|]. split; [exact Hr|]. split; [exact Hg|].
  split; [rewrite (Forall2_length _ _ _ Hp); reflexivity|].
  split; [exact Hf|]. split; [exact Hn|]. rewrite Hg'. exact Hg.
Defined.

Lemma highScore_never_decreases_witness :
  highScore crashedWorld = Num 0 /\
  exists h',
    highScore (jump coin crashedWorld) = Num h' /\ 0 <= h'.
Proof.
  split; [reflexivity|].
  exact (highScore_never_decreases coin crashedWorld (jump coin crashedWorld)
           (or_introl eq_refl)).
Defined.

Lemma particle_speed_witness :
  (forall n, (0 <= coin n)%Q /\ (coin n < 1)%Q) /\
  exists w,
    session coin [1%nat] 10 = Some w /\
    reachable coin w /\
    length (particles w) = 5%nat /\
    Forall (fun p => particle_life p = 20 /\
                     (-4 <= particle_velocity_x p)%Q /\
                     (particle_velocity_x p < 4)%Q /\
                     (-6 <= particle_velocity_y p)%Q /\
                     (particle_velocity_y p < 11)%Q)
           (particles w).
Proof.
  split; [exact coin_range|].
  destruct (sessionC coin [1%nat] 10) as [W|] eqn:E;
    vm_compute in E; [|discriminate E].
  injection E as E.
  destruct (session_sessionC coin [1%nat] 10 W)
    as (w & Hs & Hr & _ & _ & _ & _ & _ & Hp & _);
    [rewrite <- E; vm_compute; reflexivity|].
  rewrite <- E in Hp. cbn [particles] in Hp.
  exists w. split; [exact Hs|]. split; [exact Hr|].
  split; [rewrite (Forall2_length _ _ _ Hp); reflexivity|].
  apply Forall_forall. intros p Hin.
  destruct (particle_speed coin coin_range w Hr p Hin)
    as (A & B & C & D & _).
  split; [|repeat split; assumption].
  apply list_elem_of_lookup in Hin as (i & Hi).
  destruct (Forall2_lookup_l _ _ _ _ _ Hp Hi) as (q & Hq & He).
  destruct He as (_ & _ & _ & _ & Hl & _). rewrite Hl.
  repeat (destruct i as [|i]; [injection Hq as <-; reflexivity|]).
  discriminate Hq.
Defined.

Lemma stored_score_read_back_witness :
  parseInt "42px"%string = Num 42 /\
  initHighScore (Some "42px"%string) = Num 42.
Proof.
  apply (stored_score_read_back 42 "px"%string); [lia | lia |].
  split; [|intros H; discriminate H].
  intros d Hd. vm_compute in Hd. injection Hd as <-. lia.
Defined.

Lemma collision_matches_drawn_bodies_witness :
  checkCollision (mkBird 150%Q 190%Q 0%Q 0%Q)
                 [mkPipe 100%Q 200%Q 400%Q false] = true /\
  exists pipe x y w h,
    pipe ∈ [mkPipe 100%Q 200%Q 400%Q false] /\
    (drawPipe pipe !! 0%nat = Some (FillRect x y w h) \/
     drawPipe pipe !! 2%nat = Some (FillRect x y w h)) /\
    overlapsBird (mkBird 150%Q 190%Q 0%Q 0%Q) x y w h.
Proof.
  assert (E : checkCollision (mkBird 150%Q 190%Q 0%Q 0%Q)
                [mkPipe 100%Q 200%Q 400%Q false] = true)
    by (vm_compute; reflexivity).
  split; [exact E|].
  apply (collision_matches_drawn_bodies (mkBird 150%Q 190%Q 0%Q 0%Q)
           [mkPipe 100%Q 200%Q 400%Q false]);
    [vm_compute; reflexivity | vm_compute; reflexivity | exact E].
Defined.

Lemma cap_rim_does_not_collide_witness :
  overlapsBird (mkBird 150%Q 210%Q 0%Q 0%Q) (167 - 5) (200 - 30)
               (PIPE_WIDTH + 10) 30 /\
  checkCollision (mkBird 150%Q 210%Q 0%Q 0%Q)
                 [mkPipe 167%Q 200%Q 400%Q false] = false.
Proof.
  destruct (cap_rim_does_not_collide (mkBird 150%Q 210%Q 0%Q 0%Q)
              (mkPipe 167%Q 200%Q 400%Q false)) as (_ & Ho & _);
    [vm_compute; reflexivity | vm_compute; discriminate
    | vm_compute; reflexivity | vm_compute; reflexivity |].
  split; [exact Ho|]. vm_compute. reflexivity.
Defined.

Lemma clouds_stay_in_strip_witness :
  (-50 <= cloudX 1700000000000 3)%Q /\
  (cloudX 1700000000000 3 < CANVAS_WIDTH + 50)%Q /\
  (50 <= cloudY 3)%Q /\ (cloudY 3 <= 170)%Q.
Proof.
  destruct (clouds_stay_in_strip 1700000000000 3) as (A & B & C & D & _);
    [lia | lia |].
  repeat split; assumption.
Defined.

Lemma drawn_pipes_fit_witness :
  (forall n, (0 <= coin n)%Q /\ (coin n < 1)%Q) /\
  reachable coin launchedWorld /\
  Forall (fun pipe =>
            forall x y wd h,
              FillRect x y wd h ∈ drawPipe pipe ->
              (0 <= y)%Q /\ (y + h <= CANVAS_HEIGHT)%Q)
         (pipes launchedWorld).
Proof.
  split; [exact coin_range|]. split; [exact launchedWorld_reachable|].
  apply Forall_forall. intros pipe Hin.
  destruct (drawn_pipes_fit coin coin_range launchedWorld pipe
              launchedWorld_reachable Hin) as (Hall & _).
  intros x y wd h Hd. destruct (Hall x y wd h Hd) as (_ & _ & A & B).
  split; assumption.
Defined.
